(** * INET protocol models: SCTP ASCONF / AUTH helpers, RIP route ageing,
      VoIP talkspurt bookkeeping

    A shallow embedding of
    - [SCTPAssociation::sendAsconf], [retransmitAsconf], [createAuthChunk],
      [compareRandom] and [calculateAssocSharedKey];
    - the RIP route record and the routing module's timers;
    - [SimpleVoIPReceiver::TalkspurtInfo].

    Machine integers are [Z] with the wrap-around written out, C strings are
    [string], byte arrays are [list Z] read and written with a bounds check
    (an access outside the storage is undefined in C++, here [None]). *)

From Stdlib Require Import ZArith List String Ascii Bool Lia QArith Sorted Lqa.
Import ListNotations.
Open Scope Z_scope.

(* ===================================================================== *)
(** ** Fixed-width integers *)
(* ===================================================================== *)

Module Int.

Definition uint16 (z : Z) : Z := z mod 2 ^ 16.
Definition uint32 (z : Z) : Z := z mod 2 ^ 32.
(** two's complement reading of the low 32 bits *)
Definition int32 (z : Z) : Z := (z + 2 ^ 31) mod 2 ^ 32 - 2 ^ 31.

Definition LONG_MAX : Z := 2 ^ 63 - 1.
Definition LONG_MIN : Z := - 2 ^ 63.

End Int.

(* ===================================================================== *)
(** ** The C library calls used by [sendAsconf]: [strtok] and [atoi] *)
(* ===================================================================== *)

Module CStr.

Definition is_delim (delim c : ascii) : bool := Ascii.eqb c delim.

(** [s += strspn(s, delim)] *)
Fixpoint skip_delims (delim : ascii) (s : string) : string :=
  match s with
  | EmptyString => EmptyString
  | String c s' => if is_delim delim c then skip_delims delim s' else s
  end.

(** The token that starts at [s] and the position after the delimiter
    that ended it ([strcspn], then the delimiter is overwritten by NUL). *)
Fixpoint take_token (delim : ascii) (s : string) : string * string :=
  match s with
  | EmptyString => (EmptyString, EmptyString)
  | String c s' =>
      if is_delim delim c then (EmptyString, s')
      else let (t, r) := take_token delim s' in (String c t, r)
  end.

(** One call of [strtok] on the saved position [s]: [None] is the NULL
    result, [Some (token, saved)] a token and the new saved position. *)
Definition strtok (delim : ascii) (s : string) : option (string * string) :=
  match skip_delims delim s with
  | EmptyString => None
  | s1 => Some (take_token delim s1)
  end.

(** The tokens the loop
    [token = strtok(type, ","); while (token != NULL) { ...; token = strtok(NULL, ","); }]
    visits, in order.  [fuel] bounds the number of calls. *)
Fixpoint tokens_fuel (fuel : nat) (delim : ascii) (s : string) : list string :=
  match fuel with
  | O => []
  | S fuel' =>
      match strtok delim s with
      | None => []
      | Some (t, r) => t :: tokens_fuel fuel' delim r
      end
  end.

Definition tokens (delim : ascii) (s : string) : list string :=
  tokens_fuel (S (String.length s)) delim s.

(** [isspace] in the C locale *)
Definition isspace (c : ascii) : bool :=
  let n := nat_of_ascii c in
  (Nat.eqb n 32 || (Nat.leb 9 n && Nat.leb n 13))%bool.

Definition isdigit (c : ascii) : bool :=
  let n := nat_of_ascii c in (Nat.leb 48 n && Nat.leb n 57)%bool.

Definition digit_val (c : ascii) : Z := Z.of_nat (nat_of_ascii c) - 48.

Fixpoint skip_space (s : string) : string :=
  match s with
  | EmptyString => EmptyString
  | String c s' => if isspace c then skip_space s' else s
  end.

Fixpoint digits (acc : Z) (s : string) : Z :=
  match s with
  | EmptyString => acc
  | String c s' => if isdigit c then digits (10 * acc + digit_val c) s' else acc
  end.

(** [strtol(s, NULL, 10)]: the value is clamped to the range of [long] *)
Definition strtol (s : string) : Z :=
  let s1 := skip_space s in
  let v :=
    match s1 with
    | String "-"%char s2 => - digits 0 s2
    | String "+"%char s2 => digits 0 s2
    | _ => digits 0 s1
    end in
  Z.max Int.LONG_MIN (Z.min Int.LONG_MAX v).

(** [atoi(s)] is [(int) strtol(s, NULL, 10)] *)
Definition atoi (s : string) : Z := Int.int32 (strtol s).

End CStr.

(* ===================================================================== *)
(** ** SCTP: messages, chunks and the association state *)
(* ===================================================================== *)

Module SCTP.

(** [IPvXAddress]: an IPv4 or an IPv6 address *)
Inductive IPvXAddress : Type :=
| IPv4 (a : Z)
| IPv6 (a : Z).

Definition isIPv6 (a : IPvXAddress) : bool :=
  match a with IPv6 _ => true | IPv4 _ => false end.

(** [IPvXAddress("0.0.0.0")] *)
Definition unspecifiedAddress : IPvXAddress := IPv4 0.

Inductive SCTPChunkType : Type := ASCONF | ASCONF_ACK | AUTH.

(** The three parameter classes [sendAsconf] instantiates. *)
Inductive SCTPParameterClass : Type :=
| SCTPAddIPParameter
| SCTPDeleteIPParameter
| SCTPSetPrimaryIPParameter.

Record SCTPParameter : Type := mkParameter {
  paramName : string;
  paramClass : SCTPParameterClass;
  parameterType : Z;
  requestCorrelationId : Z;
  paramAddressParam : IPvXAddress;
  paramBitLength : Z
}.

Record SCTPAsconfChunk : Type := mkAsconfChunk {
  chunkName : string;
  chunkType : SCTPChunkType;
  serialNumber : Z;
  addressParam : IPvXAddress;
  chunkPeerVTag : option Z;          (* [None]: never set by this code *)
  bitLength : Z;
  asconfParams : list SCTPParameter
}.

Record SCTPAuthenticationChunk : Type := mkAuthChunk {
  authName : string;
  authChunkType : SCTPChunkType;
  authSharedKey : Z;
  hMacIdentifier : Z;
  hMacOk : bool;
  hmac : list Z;
  authBitLength : Z
}.

Inductive SCTPChunk : Type :=
| AsconfChunk (c : SCTPAsconfChunk)
| AuthenticationChunk (c : SCTPAuthenticationChunk).

(** [SCTPMessage] as these functions fill it.  [msgHeaderBitLength] is the
    length the function itself sets, with [setByteLength] or
    [setBitLength], before it attaches any chunk: the common header.  The
    length of the message with its chunks is the business of
    [SCTPMessage::addChunk], which is not among the sources: it is not
    part of the model. *)
Record SCTPMessage : Type := mkMessage {
  msgName : string;
  msgHeaderBitLength : Z;
  srcPort : option Z;                (* [None]: never set by this code *)
  destPort : option Z;
  chunks : list SCTPChunk            (* in [addChunk] order *)
}.

(** [addChunk], as the functions here use it: the chunk joins the chunk
    list, behind the chunks attached before it.  [SCTPMessage::addChunk]
    itself is not among the sources; what it does to the length of the
    message is not modelled, and no statement below is about the length
    of a message with its chunks (see [SCTPMessage]). *)
Definition addChunk (m : SCTPMessage) (c : SCTPChunk) : SCTPMessage :=
  mkMessage (msgName m) (msgHeaderBitLength m) (srcPort m) (destPort m) (chunks m ++ [c]).

Definition setBitLength (c : SCTPAsconfChunk) (l : Z) : SCTPAsconfChunk :=
  mkAsconfChunk (chunkName c) (chunkType c) (serialNumber c) (addressParam c)
                (chunkPeerVTag c) l (asconfParams c).

Definition setChunkType (c : SCTPAsconfChunk) (t : SCTPChunkType) : SCTPAsconfChunk :=
  mkAsconfChunk (chunkName c) t (serialNumber c) (addressParam c)
                (chunkPeerVTag c) (bitLength c) (asconfParams c).

Definition setName (c : SCTPAsconfChunk) (n : string) : SCTPAsconfChunk :=
  mkAsconfChunk n (chunkType c) (serialNumber c) (addressParam c)
                (chunkPeerVTag c) (bitLength c) (asconfParams c).

Definition addAsconfParam (c : SCTPAsconfChunk) (p : SCTPParameter) : SCTPAsconfChunk :=
  mkAsconfChunk (chunkName c) (chunkType c) (serialNumber c) (addressParam c)
                (chunkPeerVTag c) (bitLength c) (asconfParams c ++ [p]).

(** [dup()] yields a chunk with the same contents. *)
Definition dup (c : SCTPAsconfChunk) : SCTPAsconfChunk := c.

(** The ASCONF chunks a message carries. *)
Definition asconfChunksOf (m : SCTPMessage) : list SCTPAsconfChunk :=
  flat_map (fun c => match c with AsconfChunk a => [a] | _ => [] end) (chunks m).

(** [SCTPStateVariables], the fields these functions touch.  The key
    vectors and the shared key are byte arrays: the list is the storage,
    [sizeKeyVector] and [sizePeerKeyVector] the lengths in use. *)
Record SCTPStateVariables : Type := mkState {
  asconfOutstanding : bool;
  asconfSn : Z;                      (* uint32 *)
  corrIdNum : Z;                     (* uint32, the width of a correlation id *)
  localAddresses : list IPvXAddress;
  auth : bool;
  peerAuth : bool;
  asconfChunk : option SCTPAsconfChunk;   (* [None]: the null pointer *)
  keyVector : list Z;
  sizeKeyVector : Z;                 (* uint32 *)
  peerKeyVector : list Z;
  sizePeerKeyVector : Z;             (* uint32 *)
  sharedKey : list Z
}.

Definition set_corrIdNum (s : SCTPStateVariables) (n : Z) : SCTPStateVariables :=
  mkState (asconfOutstanding s) (asconfSn s) n (localAddresses s) (auth s) (peerAuth s)
          (asconfChunk s) (keyVector s) (sizeKeyVector s) (peerKeyVector s)
          (sizePeerKeyVector s) (sharedKey s).

Definition push_localAddress (s : SCTPStateVariables) (a : IPvXAddress) : SCTPStateVariables :=
  mkState (asconfOutstanding s) (asconfSn s) (corrIdNum s) (localAddresses s ++ [a])
          (auth s) (peerAuth s) (asconfChunk s) (keyVector s) (sizeKeyVector s)
          (peerKeyVector s) (sizePeerKeyVector s) (sharedKey s).

Definition set_asconfChunk (s : SCTPStateVariables) (c : SCTPAsconfChunk) : SCTPStateVariables :=
  mkState (asconfOutstanding s) (asconfSn s) (corrIdNum s) (localAddresses s) (auth s)
          (peerAuth s) (Some c) (keyVector s) (sizeKeyVector s) (peerKeyVector s)
          (sizePeerKeyVector s) (sharedKey s).

Definition set_asconfOutstanding (s : SCTPStateVariables) (b : bool) : SCTPStateVariables :=
  mkState b (asconfSn s) (corrIdNum s) (localAddresses s) (auth s) (peerAuth s)
          (asconfChunk s) (keyVector s) (sizeKeyVector s) (peerKeyVector s)
          (sizePeerKeyVector s) (sharedKey s).

Definition set_sharedKey (s : SCTPStateVariables) (k : list Z) : SCTPStateVariables :=
  mkState (asconfOutstanding s) (asconfSn s) (corrIdNum s) (localAddresses s) (auth s)
          (peerAuth s) (asconfChunk s) (keyVector s) (sizeKeyVector s) (peerKeyVector s)
          (sizePeerKeyVector s) k.

Definition set_keyLengths (s : SCTPStateVariables) (k p : Z) : SCTPStateVariables :=
  mkState (asconfOutstanding s) (asconfSn s) (corrIdNum s) (localAddresses s) (auth s)
          (peerAuth s) (asconfChunk s) (keyVector s) k (peerKeyVector s) p (sharedKey s).

(** [SCTPAssociation], the members these functions read. *)
Record SCTPAssociation : Type := mkAssoc {
  state : SCTPStateVariables;
  localAddr : IPvXAddress;
  remoteAddr : IPvXAddress;
  localPort : Z;
  remotePort : Z;
  peerVTag : Z;
  remoteAddressList : list IPvXAddress
}.

Definition set_state (a : SCTPAssociation) (s : SCTPStateVariables) : SCTPAssociation :=
  mkAssoc s (localAddr a) (remoteAddr a) (localPort a) (remotePort a) (peerVTag a)
          (remoteAddressList a).

(** What is declared outside the file: the length constants, the
    parameter type codes the [switch] dispatches on, the module
    parameters read through [sctpMain->par], and the collaborators
    [getLevel], [IPAddressResolver().resolve] and
    [getNextAddress(getPath(.))]. *)
Record Env : Type := mkEnv {
  SCTP_COMMON_HEADER : Z;
  SCTP_ADD_IP_CHUNK_LENGTH : Z;
  SCTP_ADD_IP_PARAMETER_LENGTH : Z;
  SCTP_AUTH_CHUNK_LENGTH : Z;
  SHA_LENGTH : Z;
  ADD_IP_ADDRESS : Z;
  DELETE_IP_ADDRESS : Z;
  SET_PRIMARY_ADDRESS : Z;
  natFriendly : bool;                       (* par("natFriendly") *)
  addAddress : IPvXAddress;                 (* resolve(par("addAddress"), 1) *)
  getLevel : IPvXAddress -> Z;
  nextAddressOfPath : IPvXAddress -> IPvXAddress
}.

(** The calls that leave the association: [sendToIP] with or without a
    destination, and the registration of a local address with the
    SCTP main module. *)
Inductive Event : Type :=
| SendToIP (msg : SCTPMessage) (dest : option IPvXAddress)
| AddLocalAddressToAllRemoteAddresses (addr : IPvXAddress) (remotes : list IPvXAddress).

Definition transmissions (evs : list Event) : list SCTPMessage :=
  flat_map (fun e => match e with SendToIP m _ => [m] | _ => [] end) evs.

(** *** [createAuthChunk]

    The loop [for (i = 0; i < SHA_LENGTH; i++) setHMAC(i, 0)] fills the
    digest with zeros. *)
Definition createAuthChunk (env : Env) : SCTPAuthenticationChunk :=
  mkAuthChunk "AUTH" AUTH 0 1 true
              (repeat 0 (Z.to_nat (SHA_LENGTH env)))
              ((SCTP_AUTH_CHUNK_LENGTH env + SHA_LENGTH env) * 8).

(** *** [sendAsconf] *)

(** The locals and the state the token loop updates. *)
Record AsconfBuild : Type := mkBuild {
  b_state : SCTPStateVariables;
  b_chunk : SCTPAsconfChunk;
  b_chunkLength : Z;                 (* uint16 *)
  b_targetAddr : IPvXAddress;
  b_events : list Event
}.

(** The length bookkeeping shared by the three cases:
    [chunkLength += 20 or 8] and [setBitLength] by the address family. *)
Definition paramLength (env : Env) (addr : IPvXAddress) : Z :=
  if isIPv6 addr then (SCTP_ADD_IP_PARAMETER_LENGTH env + 20) * 8
  else (SCTP_ADD_IP_PARAMETER_LENGTH env + 8) * 8.

Definition addrLength (addr : IPvXAddress) : Z := if isIPv6 addr then 20 else 8.

(** The body of [while (token != NULL)]: one [switch (atoi(token))]. *)
Definition asconfToken (env : Env) (a : SCTPAssociation) (nat remote : bool)
           (token : string) (b : AsconfBuild) : AsconfBuild :=
  let v := CStr.atoi token in
  if v =? ADD_IP_ADDRESS env then
    let len1 := Int.uint16 (b_chunkLength b + SCTP_ADD_IP_PARAMETER_LENGTH env) in
    let cid := Int.uint32 (corrIdNum (b_state b) + 1) in
    let st1 := set_corrIdNum (b_state b) cid in
    let addr := if nat then unspecifiedAddress else addAddress env in
    let st2 := if nat then push_localAddress st1 (addAddress env) else st1 in
    let evs := if nat
               then b_events b ++ [AddLocalAddressToAllRemoteAddresses
                                     (addAddress env) (remoteAddressList a)]
               else b_events b in
    let target := if nat
                  then (if remote then remoteAddr a
                        else nextAddressOfPath env (remoteAddr a))
                  else b_targetAddr b in
    let p := mkParameter "AddIP" SCTPAddIPParameter (ADD_IP_ADDRESS env) cid addr
                         (paramLength env addr) in
    mkBuild st2 (addAsconfParam (b_chunk b) p)
            (Int.uint16 (len1 + addrLength addr)) target evs
  else if v =? DELETE_IP_ADDRESS env then
    let len1 := Int.uint16 (b_chunkLength b + SCTP_ADD_IP_PARAMETER_LENGTH env) in
    let cid := Int.uint32 (corrIdNum (b_state b) + 1) in
    let st1 := set_corrIdNum (b_state b) cid in
    let addr := addAddress env in
    let p := mkParameter "DeleteIP" SCTPDeleteIPParameter (DELETE_IP_ADDRESS env) cid addr
                         (paramLength env addr) in
    mkBuild st1 (addAsconfParam (b_chunk b) p)
            (Int.uint16 (len1 + addrLength addr)) (b_targetAddr b) (b_events b)
  else if v =? SET_PRIMARY_ADDRESS env then
    let len1 := Int.uint16 (b_chunkLength b + SCTP_ADD_IP_PARAMETER_LENGTH env) in
    let cid := Int.uint32 (corrIdNum (b_state b) + 1) in
    let st1 := set_corrIdNum (b_state b) cid in
    let addr := if nat then unspecifiedAddress else addAddress env in
    let p := mkParameter "SetPrimary" SCTPSetPrimaryIPParameter (SET_PRIMARY_ADDRESS env)
                         cid addr (paramLength env addr) in
    mkBuild st1 (addAsconfParam (b_chunk b) p)
            (Int.uint16 (len1 + addrLength addr)) (b_targetAddr b) (b_events b)
  else b.

(** The whole token loop over the tokens [strtok] yields. *)
Definition asconfLoop (env : Env) (a : SCTPAssociation) (nat remote : bool)
           (toks : list string) (b : AsconfBuild) : AsconfBuild :=
  fold_left (fun acc t => asconfToken env a nat remote t acc) toks b.

(** [nat]: the condition of the NAT branch *)
Definition natBranch (env : Env) (a : SCTPAssociation) : bool :=
  ((getLevel env (localAddr a) =? 3) && (getLevel env (remoteAddr a) =? 4)
   && natFriendly env)%bool.

Definition sendAsconf (env : Env) (type : string) (remote : bool) (a : SCTPAssociation)
  : SCTPAssociation * list Event :=
  let st := state a in
  if negb (asconfOutstanding st) then
    let sctpAsconf :=
      mkMessage "ASCONF-MSG" (SCTP_COMMON_HEADER env * 8)
                (Some (localPort a)) (Some (remotePort a)) [] in
    let nat := natBranch env a in
    let chunkLength0 := Int.uint16 (SCTP_ADD_IP_CHUNK_LENGTH env) in
    let chunkLength1 :=
      Int.uint16 (chunkLength0 + (if isIPv6 (localAddr a) then 20 else 8)) in
    let chunk0 :=
      mkAsconfChunk "ASCONF-CHUNK" ASCONF (asconfSn st)
                    (if nat then unspecifiedAddress else localAddr a)
                    (if nat then Some (peerVTag a) else None)
                    chunkLength1 [] in
    let b := asconfLoop env a nat remote (CStr.tokens ","%char type)
                        (mkBuild st chunk0 chunkLength1 (remoteAddr a) []) in
    let chunk := setBitLength (b_chunk b) (b_chunkLength b * 8) in
    let msg1 := if (auth (b_state b) && peerAuth (b_state b))%bool
                then addChunk sctpAsconf (AuthenticationChunk (createAuthChunk env))
                else sctpAsconf in
    let msg2 := addChunk msg1 (AsconfChunk chunk) in
    let st1 := set_asconfChunk (b_state b) (setName (dup chunk) "STATE-ASCONF") in
    let evs := b_events b ++ [SendToIP msg2 (Some (b_targetAddr b))] in
    (set_state a (set_asconfOutstanding st1 true), evs)
  else (a, []).

(** *** [retransmitAsconf]

    [None] when [state->asconfChunk] is the null pointer. *)
Definition retransmitAsconf (env : Env) (a : SCTPAssociation)
  : option (SCTPAssociation * list Event) :=
  let sctpmsg := mkMessage "" (SCTP_COMMON_HEADER env * 8) None None [] in
  match asconfChunk (state a) with
  | None => None
  | Some kept =>
      let sctpasconf := setBitLength (setChunkType (dup kept) ASCONF) (bitLength kept) in
      let msg1 := if (auth (state a) && peerAuth (state a))%bool
                  then addChunk sctpmsg (AuthenticationChunk (createAuthChunk env))
                  else sctpmsg in
      Some (a, [SendToIP (addChunk msg1 (AsconfChunk sctpasconf)) None])
  end.

(** *** Byte arrays *)

(** [v[i]]: [None] outside the storage *)
Definition read (v : list Z) (i : Z) : option Z :=
  if i <? 0 then None else nth_error v (Z.to_nat i).

Fixpoint update (v : list Z) (n : nat) (x : Z) : list Z :=
  match v, n with
  | [], _ => []
  | _ :: t, O => x :: t
  | h :: t, S n' => h :: update t n' x
  end.

(** [v[i] = x]: [None] outside the storage *)
Definition write (v : list Z) (i : Z) (x : Z) : option (list Z) :=
  if ((0 <=? i) && (i <? Z.of_nat (List.length v)))%bool
  then Some (update v (Z.to_nat i) x) else None.

(** How a loop with a [return] inside ends. *)
Inductive LoopExit : Type :=
| Fallthrough                        (* the loop condition failed *)
| Returned (b : bool)                (* [return b] *)
| OutOfBounds.                       (* an access outside the storage *)

(** *** [compareRandom] *)

(** [for (i = lo + n; i > lo; i--) if (v[i] != 0) return r;] *)
Fixpoint excessLoop (v : list Z) (r : bool) (lo : Z) (n : nat) : LoopExit :=
  match n with
  | O => Fallthrough
  | S n' =>
      match read v (lo + Z.of_nat n) with
      | None => OutOfBounds
      | Some x => if x =? 0 then excessLoop v r lo n' else Returned r
      end
  end.

(** [for (i = n; i > 0; i--) { if (kv[i] < pkv[i]) return false;
                               if (kv[i] > pkv[i]) return true; }] *)
Fixpoint compareLoop (kv pkv : list Z) (n : nat) : LoopExit :=
  match n with
  | O => Fallthrough
  | S n' =>
      match read kv (Z.of_nat n), read pkv (Z.of_nat n) with
      | Some x, Some y =>
          if x <? y then Returned false
          else if x >? y then Returned true
          else compareLoop kv pkv n'
      | _, _ => OutOfBounds
      end
  end.

(** [szKey] and [szPeer] are what [sizeof(state->keyVector)] and
    [sizeof(state->peerKeyVector)] evaluate to (the declarations of the
    two members are outside the file).  The local [size] is assigned
    only when the two differ; [sizeInit] is the value the uninitialised
    local holds otherwise.  The result is [None] when an access falls
    outside the storage. *)
Definition compareRandom (szKey szPeer sizeInit : Z) (st : SCTPStateVariables)
  : option bool :=
  let sizeKeyVector := szKey in
  let sizePeerKeyVector := szPeer in
  let (size, early) :=
    if negb (sizeKeyVector =? sizePeerKeyVector) then
      if sizePeerKeyVector >? sizeKeyVector then
        (sizeKeyVector,
         excessLoop (peerKeyVector st) false sizeKeyVector
                    (Z.to_nat (sizePeerKeyVector - 1 - sizeKeyVector)))
      else
        (sizePeerKeyVector,
         excessLoop (keyVector st) true sizePeerKeyVector
                    (Z.to_nat (sizeKeyVector - 1 - sizePeerKeyVector)))
    else (sizeInit, Fallthrough) in
  match early with
  | OutOfBounds => None
  | Returned b => Some b
  | Fallthrough =>
      match compareLoop (keyVector st) (peerKeyVector st)
                        (Z.to_nat (Int.int32 (size - 1))) with
      | OutOfBounds => None
      | Returned b => Some b
      | Fallthrough => Some true
      end
  end.

(** *** [calculateAssocSharedKey] *)

(** [for (uint32 i = i0; i < i0 + n; i++) dst[i + off] = src[i];] *)
Fixpoint copyLoop (src : list Z) (off : Z) (n : nat) (i : Z) (dst : list Z)
  : option (list Z) :=
  match n with
  | O => Some dst
  | S n' =>
      match read src i with
      | None => None
      | Some x =>
          match write dst (Int.uint32 (i + off)) x with
          | None => None
          | Some dst' => copyLoop src off n' (i + 1) dst'
          end
      end
  end.

Definition calculateAssocSharedKey (szKey szPeer sizeInit : Z) (st : SCTPStateVariables)
  : option SCTPStateVariables :=
  match compareRandom szKey szPeer sizeInit st with
  | None => None
  | Some peerFirst =>
      if peerFirst then
        match copyLoop (keyVector st) 0 (Z.to_nat (sizeKeyVector st)) 0 (sharedKey st) with
        | None => None
        | Some k1 =>
            match copyLoop (peerKeyVector st) (sizeKeyVector st)
                           (Z.to_nat (sizePeerKeyVector st)) 0 k1 with
            | None => None
            | Some k2 => Some (set_sharedKey st k2)
            end
        end
      else
        match copyLoop (peerKeyVector st) 0 (Z.to_nat (sizePeerKeyVector st)) 0
                       (sharedKey st) with
        | None => None
        | Some k1 =>
            match copyLoop (keyVector st) (sizePeerKeyVector st)
                           (Z.to_nat (sizeKeyVector st)) 0 k1 with
            | None => None
            | Some k2 => Some (set_sharedKey st k2)
            end
        end
  end.

End SCTP.

(* ===================================================================== *)
(** ** RIP: route records, ageing and the triggered-update timer *)
(* ===================================================================== *)

Module RIP.

Local Open Scope Q_scope.

(** Simulation time, in seconds. *)
Definition simtime_t : Type := Q.

Definition RIP_INFINITE_METRIC : Z := 16%Z.

Inductive RouteType : Type :=
| RIP_ROUTE_RTE
| RIP_ROUTE_STATIC
| RIP_ROUTE_DEFAULT
| RIP_ROUTE_REDISTRIBUTE
| RIP_ROUTE_INTERFACE.

(** [struct RIPRoute]; [route], [ie] and [from] are references, kept
    as identifiers. *)
Record RIPRoute : Type := mkRoute {
  route : Z;
  type : RouteType;
  ie : option Z;
  from : option Z;
  metric : Z;
  tag : Z;
  changed : bool;
  lastUpdateTime : simtime_t
}.

(** The constructor [RIPRoute(route, type, metric)]. *)
Definition newRIPRoute (route : Z) (type : RouteType) (metric : Z) : RIPRoute :=
  mkRoute route type None None metric 0%Z false (0 # 1).

Inductive Timer : Type := UpdateTimer | TriggeredUpdateTimer.

Definition Timer_eqb (a b : Timer) : bool :=
  match a, b with
  | UpdateTimer, UpdateTimer | TriggeredUpdateTimer, TriggeredUpdateTimer => true
  | _, _ => false
  end.

(** [class RIPRouting]: the route table, the two interval parameters
    and the timer events the module has pending in the scheduler. *)
Record RIPRouting : Type := mkRouting {
  ripRoutes : list RIPRoute;
  routeExpiryTime : simtime_t;
  routePurgeTime : simtime_t;
  scheduled : list (simtime_t * Timer)
}.

(** [timer->isScheduled()] and [scheduleAt(t, timer)] of the simulation
    kernel, on the module's pending events. *)
Definition isScheduled (t : Timer) (rip : RIPRouting) : bool :=
  existsb (fun e => Timer_eqb (snd e) t) (scheduled rip).

Definition scheduleAt (at_ : simtime_t) (t : Timer) (rip : RIPRouting) : RIPRouting :=
  mkRouting (ripRoutes rip) (routeExpiryTime rip) (routePurgeTime rip)
            (scheduled rip ++ [(at_, t)]).

(** The due times of the pending events of one timer. *)
Definition pending (t : Timer) (rip : RIPRouting) : list simtime_t :=
  map fst (filter (fun e => Timer_eqb (snd e) t) (scheduled rip)).

(** [uniform(a, b)] for the draw [u] of the generator in [0,1) *)
Definition uniform (a b u : Q) : Q := a + (b - a) * u.

(** Modelled from the spec: [RIPRouting::triggerUpdate] (RIPRouting.cc is
    missing, the header only declares the method).  "Schedules a triggered-update timer with a
    random delay drawn uniformly from [1s,5s]; idempotent: a pending
    scheduled trigger is not rescheduled."  [now] is the simulation time
    of the call, [u] the draw of the random number generator. *)
Definition triggerUpdate (now : simtime_t) (u : Q) (rip : RIPRouting) : RIPRouting :=
  if isScheduled TriggeredUpdateTimer rip then rip
  else scheduleAt (now + uniform (1 # 1) (5 # 1) u) TriggeredUpdateTimer rip.

(** Modelled from the spec: which routes age (RIPRouting.cc is missing).
    The deadlines count from the "last valid update", which only a route
    learned from a peer receives; the routes imported at start-up are
    "zero-touch entries (no expiry)".  So the routes learned from a peer
    age, the others have no deadline. *)
Definition ages (t : RouteType) : bool :=
  match t with
  | RIP_ROUTE_RTE => true
  | RIP_ROUTE_STATIC | RIP_ROUTE_DEFAULT | RIP_ROUTE_REDISTRIBUTE
  | RIP_ROUTE_INTERFACE => false
  end.

(** Modelled from the spec: the two deadlines of a route, "expiry (180s
    after last valid update) and purge (120s after expiry)", measured
    with the module's [routeExpiryTime] and [routePurgeTime]. *)
Definition expiryTime (rip : RIPRouting) (r : RIPRoute) : option simtime_t :=
  if ages (type r) then Some (lastUpdateTime r + routeExpiryTime rip) else None.

(** Modelled from the spec: the purge deadline, "120s after expiry". *)
Definition purgeTime (rip : RIPRouting) (r : RIPRoute) : option simtime_t :=
  match expiryTime rip r with
  | Some e => Some (e + routePurgeTime rip)
  | None => None
  end.

(** Modelled from the spec: [purgeRoute] "removes the route from the
    routing table". *)
Definition purgeRoute (rip : RIPRouting) (r : RIPRoute) : RIPRouting :=
  mkRouting (filter (fun x => negb (route x =? route r)%Z) (ripRoutes rip))
            (routeExpiryTime rip) (routePurgeTime rip) (scheduled rip).

(** Modelled from the spec: [invalidateRoute], "sets metric 16, marks
    changed, triggers update". *)
Definition invalidateRoute (now : simtime_t) (u : Q) (rip : RIPRouting) (r : RIPRoute)
  : RIPRouting :=
  let mark x :=
    if (route x =? route r)%Z
    then mkRoute (route x) (type x) (ie x) (from x) RIP_INFINITE_METRIC (tag x) true
                 (lastUpdateTime x)
    else x in
  triggerUpdate now u
    (mkRouting (map mark (ripRoutes rip)) (routeExpiryTime rip) (routePurgeTime rip)
               (scheduled rip)).

(** Modelled from the spec: [RIPRouting::checkRoute] (declared in the
    header; RIPRouting.cc, which defines it, is missing).  "Transitions a route through
    valid, expired (sets metric 16, marks changed, triggers update),
    purged (removed) based on elapsed time against routeExpiryTime and
    routePurgeTime"; it "returns the route if it is valid". *)
Definition checkRoute (now : simtime_t) (u : Q) (rip : RIPRouting) (r : RIPRoute)
  : RIPRouting * option RIPRoute :=
  match expiryTime rip r, purgeTime rip r with
  | Some e, Some p =>
      if Qle_bool p now then (purgeRoute rip r, None)
      else if Qle_bool e now then (invalidateRoute now u rip r, None)
      else (rip, Some r)
  | _, _ => (rip, Some r)
  end.

End RIP.

(* ===================================================================== *)
(** ** VoIP: [SimpleVoIPReceiver::TalkspurtInfo] *)
(* ===================================================================== *)

Module VoIP.

Record VoIPPacketInfo : Type := mkPacketInfo {
  packetID : Z;
  creationTime : Q;
  arrivalTime : Q;
  playoutTime : Q
}.

Inductive Status : Type := EMPTY | ACTIVE | FINISHED.

Definition Status_eqb (a b : Status) : bool :=
  match a, b with
  | EMPTY, EMPTY | ACTIVE, ACTIVE | FINISHED, FINISHED => true
  | _, _ => false
  end.

Record TalkspurtInfo : Type := mkTalkspurt {
  status : Status;
  talkspurtID : Z;                   (* unsigned int *)
  talkspurtNumPackets : Z;           (* unsigned int *)
  voiceDuration : Q;
  packets : list VoIPPacketInfo
}.

(** [void finishTalkspurt() { status = FINISHED; packets.clear(); }] *)
Definition finishTalkspurt (t : TalkspurtInfo) : TalkspurtInfo :=
  mkTalkspurt FINISHED (talkspurtID t) (talkspurtNumPackets t) (voiceDuration t) [].

(** [bool isActive() { return (status == ACTIVE); }] *)
Definition isActive (t : TalkspurtInfo) : bool := Status_eqb (status t) ACTIVE.

End VoIP.

(* ===================================================================== *)
(** ** Concrete environments, associations and key material *)
(* ===================================================================== *)

Module Samples.
Import SCTP.

(** The wire values of RFC 5061 for the parameter types, the lengths of
    the SCTP common header, of the ASCONF and AUTH chunk headers and of
    a SHA-1 digest; no NAT. *)
Definition env0 : Env :=
  mkEnv 12 8 8 8 20 49153 49154 49156 false (IPv4 167772162)
        (fun _ => 4) (fun a => a).

(** The same with the NAT-friendly branch taken. *)
Definition envNat : Env :=
  mkEnv 12 8 8 8 20 49153 49154 49156 true (IPv4 167772162)
        (fun a => match a with IPv4 167772161 => 3 | _ => 4 end) (fun a => a).

Definition state0 : SCTPStateVariables :=
  mkState false 7 0 [IPv4 167772161] false false None [] 0 [] 0 [].

Definition assoc0 : SCTPAssociation :=
  mkAssoc state0 (IPv4 167772161) (IPv4 167772417) 5000 6000 99 [IPv4 167772417].

(** [assoc0] with the correlation counter one below the largest [uint32]. *)
Definition assocWrap : SCTPAssociation :=
  set_state assoc0 (set_corrIdNum state0 4294967294).

(** [assoc0] after a first request, and after the acknowledgement that
    clears [asconfOutstanding]. *)
Definition assocSent : SCTPAssociation := fst (sendAsconf env0 "49153" false assoc0).

Definition assocAcked : SCTPAssociation :=
  set_state assocSent (set_asconfOutstanding (state assocSent) false).

(** Two endpoints holding the key vectors [A] and [B] in 4-byte
    storage: one has [A] as its own vector and [B] as the peer's, the
    other the converse.  [A] and [B] differ at index 0 only. *)
Definition keyA : list Z := [1; 7; 7; 7].
Definition keyB : list Z := [2; 7; 7; 7].

Definition endpointAB : SCTPStateVariables :=
  mkState false 0 0 [] true true None keyA 4 keyB 4 (repeat 0 8%nat).

Definition endpointBA : SCTPStateVariables :=
  mkState false 0 0 [] true true None keyB 4 keyA 4 (repeat 0 8%nat).

(** Two endpoints whose vectors differ at index 0 and at index 2, the
    highest index where they differ. *)
Definition keyP : list Z := [1; 7; 9; 7].
Definition keyQ : list Z := [2; 7; 5; 7].

Definition endpointPQ : SCTPStateVariables :=
  mkState false 0 0 [] true true None keyP 4 keyQ 4 (repeat 0 8%nat).

Definition endpointQP : SCTPStateVariables :=
  mkState false 0 0 [] true true None keyQ 4 keyP 4 (repeat 0 8%nat).

(** Two vectors of length 2 in zeroed 4-byte storage; the own vector
    has the smaller byte at index 1. *)
Definition endpointPadded : SCTPStateVariables :=
  mkState false 0 0 [] true true None [0; 1; 0; 0] 2 [0; 2; 0; 0] 2 (repeat 0 8%nat).

(** Own vector of length 2, peer vector of length 3 whose excess byte
    (index 2) is 5; the own storage still holds a 9 at index 2. *)
Definition endpointShort : SCTPStateVariables :=
  mkState false 0 0 [] true true None [1; 1; 9; 0] 2 [1; 1; 5; 0] 3 (repeat 0 8%nat).

End Samples.

(* ===================================================================== *)
(** ** The histories of one association *)
(* ===================================================================== *)

Module History.
Import SCTP.

(** The correlation identifiers carried by the ASCONF parameters of the
    messages handed to [sendToIP], in transmission order. *)
Definition sentCorrelationIds (evs : list Event) : list Z :=
  flat_map (fun m => flat_map (fun c => map requestCorrelationId (asconfParams c))
                              (asconfChunksOf m))
           (transmissions evs).

(** [Lifetime env a ids a']: the association [a] can evolve into [a']
    while the parameters built by its [sendAsconf] calls carry, in order
    of construction, the correlation identifiers [ids].  Between two
    calls anything may happen to the association (the ASCONF-ACK that
    clears [asconfOutstanding], a retransmission, ...) as long as the
    counter [corrIdNum] is left alone: [sendAsconf] is its only writer
    in the file. *)
Inductive Lifetime (env : Env) (a : SCTPAssociation)
  : list Z -> SCTPAssociation -> Prop :=
| LifetimeStart : Lifetime env a [] a
| LifetimeSend ids a1 type remote :
    Lifetime env a ids a1 ->
    Lifetime env a
             (ids ++ sentCorrelationIds (snd (sendAsconf env type remote a1)))
             (fst (sendAsconf env type remote a1))
| LifetimeOther ids a1 a2 :
    Lifetime env a ids a1 ->
    corrIdNum (state a2) = corrIdNum (state a1) ->
    Lifetime env a ids a2.

(** The values the [switch] of [sendAsconf] has a case for. *)
Definition isChangeType (env : Env) (v : Z) : bool :=
  ((v =? ADD_IP_ADDRESS env) || (v =? DELETE_IP_ADDRESS env)
   || (v =? SET_PRIMARY_ADDRESS env))%bool.

(** Two byte arrays hold the same byte at every index from 1 upward. *)
Definition agreeFrom1 (v w : list Z) : Prop :=
  forall i, 1 <= i -> read v i = read w i.

End History.

(* ===================================================================== *)
(** ** SCTP: acknowledgements, chunk lists, routing entries *)
(* ===================================================================== *)

Module Ack.
Import SCTP.

Record SCTPAsconfAckChunk : Type := mkAsconfAckChunk {
  ackName : string;
  ackChunkType : SCTPChunkType;
  ackSerialNumber : Z;               (* uint32 *)
  ackBitLength : Z
}.

(** The chunks of an acknowledgement message: an [SCTPMessage] whose
    chunk list holds an optional AUTH chunk and an ASCONF-ACK chunk.  As
    for [SCTPMessage], the length field is the header length the function
    sets itself, not the length of the message with its chunks. *)
Inductive AckMessageChunk : Type :=
| AckAuthentication (c : SCTPAuthenticationChunk)
| AsconfAck (c : SCTPAsconfAckChunk).

Record SCTPAckMessage : Type := mkAckMessage {
  ackMsgName : string;
  ackMsgHeaderBitLength : Z;
  ackSrcPort : Z;
  ackDestPort : Z;
  ackChunks : list AckMessageChunk   (* in [addChunk] order *)
}.

(** *** [createAsconfAckChunk] *)
Definition createAsconfAckChunk (env : Env) (serialNumber : Z) : SCTPAsconfAckChunk :=
  mkAsconfAckChunk "ASCONF_ACK" ASCONF_ACK serialNumber (SCTP_ADD_IP_CHUNK_LENGTH env * 8).

(** *** [sendAsconfAck]

    The result is the association after the call and the one message
    handed to [sendToIP] with its destination. *)
Definition sendAsconfAck (env : Env) (serialNumber : Z) (a : SCTPAssociation)
  : SCTPAssociation * (SCTPAckMessage * IPvXAddress) :=
  let asconfAckChunk :=
    mkAsconfAckChunk "ASCONF_ACK" ASCONF_ACK serialNumber
                     (SCTP_ADD_IP_CHUNK_LENGTH env * 8) in
  let chunks0 := if (auth (state a) && peerAuth (state a))%bool
                 then [AckAuthentication (createAuthChunk env)] else [] in
  (a, (mkAckMessage "ASCONF_ACK" (SCTP_COMMON_HEADER env * 8) (localPort a) (remotePort a)
                    (chunks0 ++ [AsconfAck asconfAckChunk]),
       remoteAddr a)).

(** *** [typeInChunkList]

    [peerChunkList] is [state->peerChunkList]; the iterator loop returns
    at the first element equal to [type]. *)
Fixpoint typeInChunkList (peerChunkList : list Z) (type : Z) : bool :=
  match peerChunkList with
  | [] => false
  | x :: rest => if x =? type then true else typeInChunkList rest type
  end.

End Ack.

Module RoutingFile.

Inductive IPRouteType : Type := DIRECT | REMOTE.

(** The fields of [IPRoute] that [makeRoutingEntry] sets; [None] is the
    value the constructor left.  An address field holds the text its
    [IPAddress] is constructed from. *)
Record IPRoute : Type := mkIPRoute {
  host : option string;
  gateway : option string;
  netmask : option string;
  routeType : option IPRouteType;
  routeMetric : option Z
}.

Definition newIPRoute : IPRoute := mkIPRoute None None None None None.

Definition setHost (s : string) (e : IPRoute) : IPRoute :=
  mkIPRoute (Some s) (gateway e) (netmask e) (routeType e) (routeMetric e).

Definition setGateway (s : string) (e : IPRoute) : IPRoute :=
  mkIPRoute (host e) (Some s) (netmask e) (routeType e) (routeMetric e).

Definition setNetmask (s : string) (e : IPRoute) : IPRoute :=
  mkIPRoute (host e) (gateway e) (Some s) (routeType e) (routeMetric e).

(** [if (str[0] == 'H') setType(DIRECT); else if (str[0] == 'G') setType(REMOTE);] *)
Definition setTypeFrom (s : string) (e : IPRoute) : IPRoute :=
  match s with
  | String "H"%char _ =>
      mkIPRoute (host e) (gateway e) (netmask e) (Some DIRECT) (routeMetric e)
  | String "G"%char _ =>
      mkIPRoute (host e) (gateway e) (netmask e) (Some REMOTE) (routeMetric e)
  | _ => e
  end.

(** [e->setMetric(0)], whatever the column holds *)
Definition setMetric0 (s : string) (e : IPRoute) : IPRoute :=
  mkIPRoute (host e) (gateway e) (netmask e) (routeType e) (Some 0).

(** One [if (str != NULL) { set(e, str); str = strtok(NULL, " "); }]: the
    state is the route and the current result of [strtok]. *)
Definition column (set : string -> IPRoute -> IPRoute)
           (st : IPRoute * option (string * string)) : IPRoute * option (string * string) :=
  match snd st with
  | Some (str, saved) => (set str (fst st), CStr.strtok " "%char saved)
  | None => st
  end.

(** *** [makeRoutingEntry], up to the last [if (str != NULL)]

    The result is [None] when the function returns without reaching the
    block that looks the interface up and adds the route, and
    [Some (e, str)] when it enters that block with the route [e] and the
    sixth column [str]. *)
Definition makeRoutingEntry (route : string) : option (IPRoute * string) :=
  if String.eqb route "" then None
  else
    let st := (newIPRoute, CStr.strtok " "%char route) in
    let st := column setHost st in
    let st := column setGateway st in
    let st := column setNetmask st in
    let st := column setTypeFrom st in
    let st := column setMetric0 st in
    match snd st with
    | Some (str, _) => Some (fst st, str)
    | None => None
    end.

(** What the fourth column makes of the route type. *)
Definition typeOfColumn (s : string) : option IPRouteType :=
  match s with
  | String "H"%char _ => Some DIRECT
  | String "G"%char _ => Some REMOTE
  | _ => None
  end.

End RoutingFile.

(* ===================================================================== *)
(** ** Measures on the parameters and tokens of an ASCONF request *)
(* ===================================================================== *)

Module Accounting.
Import SCTP.

(** The bytes one parameter adds to [chunkLength]. *)
Definition paramBytes (env : Env) (p : SCTPParameter) : Z :=
  SCTP_ADD_IP_PARAMETER_LENGTH env + addrLength (paramAddressParam p).

Definition sumBytes (env : Env) (ps : list SCTPParameter) : Z :=
  fold_right (fun p acc => paramBytes env p + acc) 0 ps.

Definition sumBits (ps : list SCTPParameter) : Z :=
  fold_right (fun p acc => paramBitLength p + acc) 0 ps.

(** The case of the [switch] a token value selects, if any. *)
Definition tokenClass (env : Env) (v : Z) : option SCTPParameterClass :=
  if v =? ADD_IP_ADDRESS env then Some SCTPAddIPParameter
  else if v =? DELETE_IP_ADDRESS env then Some SCTPDeleteIPParameter
  else if v =? SET_PRIMARY_ADDRESS env then Some SCTPSetPrimaryIPParameter
  else None.

Definition classesOf (env : Env) (toks : list string) : list SCTPParameterClass :=
  flat_map (fun t => match tokenClass env (CStr.atoi t) with
                     | Some c => [c]
                     | None => []
                     end) toks.

Definition typeOfClass (env : Env) (c : SCTPParameterClass) : Z :=
  match c with
  | SCTPAddIPParameter => ADD_IP_ADDRESS env
  | SCTPDeleteIPParameter => DELETE_IP_ADDRESS env
  | SCTPSetPrimaryIPParameter => SET_PRIMARY_ADDRESS env
  end.

Definition nameOfClass (c : SCTPParameterClass) : string :=
  match c with
  | SCTPAddIPParameter => "AddIP"
  | SCTPDeleteIPParameter => "DeleteIP"
  | SCTPSetPrimaryIPParameter => "SetPrimary"
  end.

(** The address a parameter of class [c] carries: the wildcard in NAT
    mode unless it is a delete parameter, the resolved address else. *)
Definition addressOfClass (env : Env) (natMode : bool) (c : SCTPParameterClass)
  : IPvXAddress :=
  match c with
  | SCTPDeleteIPParameter => addAddress env
  | _ => if natMode then unspecifiedAddress else addAddress env
  end.

(** The number of tokens that select the add-address case. *)
Definition addCount (env : Env) (toks : list string) : Datatypes.nat :=
  List.length (filter (fun t => CStr.atoi t =? ADD_IP_ADDRESS env) toks).

(** What the loop leaves alone: every state variable but the counter and
    the local address list, and every field of the chunk under
    construction but its parameter list. *)
Definition loopFrame (b b' : AsconfBuild) : Prop :=
  asconfOutstanding (b_state b') = asconfOutstanding (b_state b) /\
  asconfSn (b_state b') = asconfSn (b_state b) /\
  auth (b_state b') = auth (b_state b) /\
  peerAuth (b_state b') = peerAuth (b_state b) /\
  asconfChunk (b_state b') = asconfChunk (b_state b) /\
  keyVector (b_state b') = keyVector (b_state b) /\
  sizeKeyVector (b_state b') = sizeKeyVector (b_state b) /\
  peerKeyVector (b_state b') = peerKeyVector (b_state b) /\
  sizePeerKeyVector (b_state b') = sizePeerKeyVector (b_state b) /\
  sharedKey (b_state b') = sharedKey (b_state b) /\
  chunkName (b_chunk b') = chunkName (b_chunk b) /\
  chunkType (b_chunk b') = chunkType (b_chunk b) /\
  serialNumber (b_chunk b') = serialNumber (b_chunk b) /\
  addressParam (b_chunk b') = addressParam (b_chunk b) /\
  chunkPeerVTag (b_chunk b') = chunkPeerVTag (b_chunk b) /\
  bitLength (b_chunk b') = bitLength (b_chunk b).


(** A parameter as the case of its class builds it. *)
Definition builtAs (env : Env) (natMode : bool) (p : SCTPParameter) : Prop :=
  parameterType p = typeOfClass env (paramClass p) /\
  paramName p = nameOfClass (paramClass p) /\
  paramAddressParam p = addressOfClass env natMode (paramClass p) /\
  paramBitLength p = 8 * paramBytes env p.


(** The bytes of the chunk header: the fixed part and the address
    parameter, sized by the family of the local address. *)
Definition asconfHeaderBytes (env : Env) (a : SCTPAssociation) : Z :=
  SCTP_ADD_IP_CHUNK_LENGTH env + addrLength (localAddr a).

(** The chunks a message starts with: the AUTH chunk when both sides
    authenticate. *)
Definition authPrefix (env : Env) (a : SCTPAssociation) : list SCTPChunk :=
  if (auth (state a) && peerAuth (state a))%bool
  then [AuthenticationChunk (createAuthChunk env)] else [].

(** The destination [sendAsconf] ends with, for [k] add-address tokens. *)
Definition asconfTarget (env : Env) (a : SCTPAssociation) (remote : bool)
           (k : Datatypes.nat) : IPvXAddress :=
  if (natBranch env a && negb (Nat.eqb k 0))%bool
  then (if remote then remoteAddr a else nextAddressOfPath env (remoteAddr a))
  else remoteAddr a.

(** Two byte arrays hold the same byte at every index from 1 upward
    other than [m]. *)
Definition agreeExcept (m : Z) (v w : list Z) : Prop :=
  forall i, 1 <= i -> i <> m -> read v i = read w i.

(** Fields joined by the delimiter, as a caller writes the type string. *)
Fixpoint join (delim : ascii) (fields : list string) : string :=
  match fields with
  | [] => EmptyString
  | [f] => f
  | f :: rest => (f ++ String delim (join delim rest))%string
  end.

(** A field [strtok] returns unchanged: not empty, no delimiter inside. *)
Fixpoint delimFree (delim : ascii) (s : string) : bool :=
  match s with
  | EmptyString => true
  | String c s' => (negb (CStr.is_delim delim c) && delimFree delim s')%bool
  end.

Definition isField (delim : ascii) (s : string) : bool :=
  (negb (String.eqb s "") && delimFree delim s)%bool.

(** The three-way case analysis of one [switch (atoi(token))]. *)
Ltac token_cases env t :=
  unfold asconfToken, tokenClass; cbv zeta;
  destruct (CStr.atoi t =? ADD_IP_ADDRESS env) eqn:?;
  [|destruct (CStr.atoi t =? DELETE_IP_ADDRESS env) eqn:?;
    [|destruct (CStr.atoi t =? SET_PRIMARY_ADDRESS env) eqn:?]].

End Accounting.

Import SCTP History Samples.

(* ===================================================================== *)
(** ** Facts about [strtok] and the token loop *)
(* ===================================================================== *)

Section StrtokFacts.
Variable delim : ascii.

Lemma skip_delims_length s :
  (String.length (CStr.skip_delims delim s) <= String.length s)%nat.
Proof.
  induction s as [|c s IH]; simpl; [lia|].
  destruct (CStr.is_delim delim c); simpl; lia.
Qed.

Lemma take_token_length s :
  (String.length (snd (CStr.take_token delim s)) <= String.length s)%nat.
Proof.
  induction s as [|c s IH]; simpl; [lia|].
  destruct (CStr.is_delim delim c); simpl; [lia|].
  destruct (CStr.take_token delim s) as [t r]; simpl in *; lia.
Qed.

(** A call that yields a token leaves a strictly shorter rest. *)
Lemma strtok_shorter s t r :
  CStr.strtok delim s = Some (t, r) -> (String.length r < String.length s)%nat.
Proof.
  unfold CStr.strtok. intros H.
  pose proof (skip_delims_length s) as Hs.
  destruct (CStr.skip_delims delim s) as [|c s1] eqn:E; [discriminate|].
  injection H as H. simpl in H.
  destruct (CStr.is_delim delim c).
  - injection H as _ <-. simpl in Hs. lia.
  - pose proof (take_token_length s1) as Ht.
    destruct (CStr.take_token delim s1) as [t1 r1]. injection H as _ <-.
    simpl in *. lia.
Qed.

Lemma tokens_fuel_enough fuel1 : forall fuel2 s,
  (String.length s < fuel1)%nat -> (String.length s < fuel2)%nat ->
  CStr.tokens_fuel fuel1 delim s = CStr.tokens_fuel fuel2 delim s.
Proof.
  induction fuel1 as [|f1 IH]; intros [|f2] s H1 H2; try lia.
  simpl. destruct (CStr.strtok delim s) as [[t r]|] eqn:E; [|reflexivity].
  apply strtok_shorter in E. f_equal. apply IH; lia.
Qed.

(** The loop stops for want of tokens, never for want of fuel: the token
    list obeys the equation of the [while] loop. *)
Lemma tokens_unfold s :
  CStr.tokens delim s =
  match CStr.strtok delim s with
  | None => []
  | Some (t, r) => t :: CStr.tokens delim r
  end.
Proof.
  unfold CStr.tokens at 1. simpl.
  destruct (CStr.strtok delim s) as [[t r]|] eqn:E; [|reflexivity].
  apply strtok_shorter in E. f_equal.
  unfold CStr.tokens. apply tokens_fuel_enough; lia.
Qed.

End StrtokFacts.

(* ===================================================================== *)
(** ** Facts about [sendAsconf] *)
(* ===================================================================== *)

Section SendAsconfFacts.
Variable env : Env.
Variable a : SCTPAssociation.
Variables nat remote : bool.

Lemma transmissions_app evs1 evs2 :
  transmissions (evs1 ++ evs2) = transmissions evs1 ++ transmissions evs2.
Proof. unfold transmissions. apply flat_map_app. Qed.

Lemma uint32_nonneg z : 0 <= Int.uint32 z.
Proof. unfold Int.uint32. apply Z.mod_pos_bound. lia. Qed.

Lemma uint32_small z : 0 <= z < 2 ^ 32 -> Int.uint32 z = z.
Proof. unfold Int.uint32. apply Z.mod_small. Qed.

(** One pass through the [switch]: a value without a case leaves every
    local and the state as they were; a value with a case appends one
    parameter, typed by that value and tagged with the incremented
    counter. *)
Lemma asconfToken_cases t b :
  let b' := asconfToken env a nat remote t b in
  (isChangeType env (CStr.atoi t) = false /\ b' = b) \/
  (isChangeType env (CStr.atoi t) = true /\
   exists p,
     asconfParams (b_chunk b') = asconfParams (b_chunk b) ++ [p] /\
     parameterType p = CStr.atoi t /\
     requestCorrelationId p = Int.uint32 (corrIdNum (b_state b) + 1) /\
     corrIdNum (b_state b') = Int.uint32 (corrIdNum (b_state b) + 1) /\
     serialNumber (b_chunk b') = serialNumber (b_chunk b) /\
     chunkType (b_chunk b') = chunkType (b_chunk b) /\
     transmissions (b_events b') = transmissions (b_events b)).
Proof.
  unfold asconfToken, isChangeType. cbv zeta.
  destruct (CStr.atoi t =? ADD_IP_ADDRESS env) eqn:E1;
    [|destruct (CStr.atoi t =? DELETE_IP_ADDRESS env) eqn:E2;
      [|destruct (CStr.atoi t =? SET_PRIMARY_ADDRESS env) eqn:E3]].
  - right. split; [reflexivity|]. apply Z.eqb_eq in E1.
    eexists. simpl. repeat split; try reflexivity; try (symmetry; exact E1).
    + destruct nat; reflexivity.
    + destruct nat; [|reflexivity].
      rewrite transmissions_app. simpl. apply app_nil_r.
  - right. split; [reflexivity|]. apply Z.eqb_eq in E2.
    eexists. simpl. repeat split; try reflexivity; symmetry; exact E2.
  - right. split; [reflexivity|]. apply Z.eqb_eq in E3.
    eexists. simpl. repeat split; try reflexivity; symmetry; exact E3.
  - left. split; reflexivity.
Qed.

Lemma ids_from_shift c n :
  map (fun k => c + 1 + Z.of_nat k) (seq 1 n) = map (fun k => c + Z.of_nat k) (seq 2 n).
Proof.
  rewrite <- (seq_shift n 1), map_map.
  apply map_ext. intros k. lia.
Qed.

(** The whole token loop: the parameters are appended in token order,
    one per token whose value has a case; no message leaves; and while
    the 32-bit counter does not wrap the identifiers are the successors
    of its value on entry. *)
Lemma asconfLoop_spec toks : forall b,
  exists new,
    asconfParams (b_chunk (asconfLoop env a nat remote toks b)) =
      asconfParams (b_chunk b) ++ new /\
    map parameterType new = filter (isChangeType env) (map CStr.atoi toks) /\
    serialNumber (b_chunk (asconfLoop env a nat remote toks b)) = serialNumber (b_chunk b) /\
    chunkType (b_chunk (asconfLoop env a nat remote toks b)) = chunkType (b_chunk b) /\
    transmissions (b_events (asconfLoop env a nat remote toks b)) =
      transmissions (b_events b) /\
    (0 <= corrIdNum (b_state b) ->
     corrIdNum (b_state b) + Z.of_nat (List.length new) < 2 ^ 32 ->
     map requestCorrelationId new =
       map (fun k => corrIdNum (b_state b) + Z.of_nat k) (seq 1 (List.length new)) /\
     corrIdNum (b_state (asconfLoop env a nat remote toks b)) =
       corrIdNum (b_state b) + Z.of_nat (List.length new)).
Proof.
  induction toks as [|t toks IH]; intros b.
  - exists []. simpl. rewrite app_nil_r. repeat split; try reflexivity. lia.
  - unfold asconfLoop in *. cbn [fold_left map filter].
    destruct (asconfToken_cases t b) as [[Hu Hb]|[Hk [p (Hp & Hty & Hid & Hc & Hsn & Hct & Htx)]]];
      cbv zeta in *.
    + rewrite Hb, Hu. apply IH.
    + rewrite Hk.
      destruct (IH (asconfToken env a nat remote t b))
        as [new (Hnew & Htys & Hsns & Hcts & Htxs & Hids)].
      exists (p :: new). rewrite Hnew, Hp, <- app_assoc. simpl.
      split; [reflexivity|]. split; [rewrite Hty, Htys; reflexivity|].
      split; [rewrite Hsns; exact Hsn|]. split; [rewrite Hcts; exact Hct|].
      split; [rewrite Htxs; exact Htx|].
      intros H0 Hlt. rewrite Hc in Hids.
      rewrite uint32_small in Hids by lia.
      destruct Hids as [Hids Hcs]; [lia|lia|].
      rewrite Hid, uint32_small by lia. split.
      * f_equal. rewrite Hids. apply ids_from_shift.
      * rewrite Hcs. lia.
Qed.

End SendAsconfFacts.

(** What a call of [sendAsconf] does when no request is outstanding: one
    message leaves, it carries one ASCONF chunk with the serial number of
    the state, a copy of the chunk is retained, the flag is raised, and
    the parameters are those of the token loop. *)
Lemma sendAsconf_when_idle env type remote a :
  asconfOutstanding (state a) = false ->
  exists msg chunk,
    transmissions (snd (sendAsconf env type remote a)) = [msg] /\
    asconfChunksOf msg = [chunk] /\
    asconfOutstanding (state (fst (sendAsconf env type remote a))) = true /\
    asconfChunk (state (fst (sendAsconf env type remote a))) =
      Some (setName chunk "STATE-ASCONF") /\
    serialNumber chunk = asconfSn (state a) /\
    chunkType chunk = ASCONF /\
    map parameterType (asconfParams chunk) =
      filter (isChangeType env) (map CStr.atoi (CStr.tokens ","%char type)) /\
    (0 <= corrIdNum (state a) ->
     corrIdNum (state a) + Z.of_nat (List.length (asconfParams chunk)) < 2 ^ 32 ->
     map requestCorrelationId (asconfParams chunk) =
       map (fun k => corrIdNum (state a) + Z.of_nat k)
           (seq 1 (List.length (asconfParams chunk))) /\
     corrIdNum (state (fst (sendAsconf env type remote a))) =
       corrIdNum (state a) + Z.of_nat (List.length (asconfParams chunk))).
Proof.
  intros Hidle. unfold sendAsconf. rewrite Hidle. cbn [negb]. cbv zeta.
  match goal with
  | |- context [asconfLoop env a ?n remote ?toks ?b0] =>
      destruct (asconfLoop_spec env a n remote toks b0)
        as [new (Hnew & Htys & Hsn & Hct & Htx & Hids)];
      remember (asconfLoop env a n remote toks b0) as b eqn:Eb
  end.
  cbn [b_chunk b_state b_events asconfParams serialNumber chunkType app corrIdNum] in *.
  eexists. exists (setBitLength (b_chunk b) (b_chunkLength b * 8)).
  cbn [fst snd].
  split; [|split; [|split; [|split; [|split; [|split; [|split]]]]]].
  - rewrite transmissions_app, Htx. reflexivity.
  - destruct (auth (b_state b) && peerAuth (b_state b))%bool; reflexivity.
  - reflexivity.
  - reflexivity.
  - exact Hsn.
  - exact Hct.
  - cbn [setBitLength asconfParams]. rewrite Hnew. exact Htys.
  - cbn [setBitLength asconfParams set_state state set_asconfOutstanding
         set_asconfChunk corrIdNum].
    rewrite Hnew. exact Hids.
Qed.

(** The identifiers [c+1, c+2, ..., c+n] increase strictly. *)
Lemma successors_sorted n : forall c (i : Datatypes.nat),
  StronglySorted Z.lt (map (fun k => c + Z.of_nat k) (seq i n)).
Proof.
  induction n as [|n IH]; intros c i; simpl; constructor.
  - apply IH.
  - apply Forall_forall. intros x Hx.
    apply in_map_iff in Hx. destruct Hx as [k [<- Hk]].
    apply in_seq in Hk. lia.
Qed.

(* ===================================================================== *)
(** ** ASCONF: mutual exclusion, skipped tokens, retransmission,
       correlation identifiers *)
(* ===================================================================== *)


(** C8 (tokens without a case).  A token whose [atoi] value is none of
    ADD_IP_ADDRESS, DELETE_IP_ADDRESS, SET_PRIMARY_ADDRESS passes through
    the [switch] without any effect.  Whatever the type string holds, a
    call with no request outstanding returns normally, transmits one
    message with one ASCONF chunk and sets [asconfOutstanding]; the
    parameters of the chunk are typed, in order, by the token values that
    do have a case, so a string without such a token yields a chunk with
    no parameter. *)
Theorem sendAsconf_skips_unknown_change_types env type remote a :
  asconfOutstanding (state a) = false ->
  (forall natMode t b,
      isChangeType env (CStr.atoi t) = false ->
      asconfToken env a natMode remote t b = b) /\
  exists msg chunk,
    transmissions (snd (sendAsconf env type remote a)) = [msg] /\
    asconfChunksOf msg = [chunk] /\
    asconfOutstanding (state (fst (sendAsconf env type remote a))) = true /\
    map parameterType (asconfParams chunk) =
      filter (isChangeType env) (map CStr.atoi (CStr.tokens ","%char type)) /\
    (Forall (fun t => isChangeType env (CStr.atoi t) = false) (CStr.tokens ","%char type) ->
     asconfParams chunk = []).
Proof.
  intros Hout. split.
  - intros natMode t b Hu.
    destruct (asconfToken_cases env a natMode remote t b) as [[_ Hb]|[Hk _]].
    + exact Hb.
    + congruence.
  - destruct (sendAsconf_when_idle env type remote a Hout)
      as [msg [chunk (Ht & Hc & Hset & _ & _ & _ & Hty & _)]].
    exists msg, chunk. repeat split; try assumption.
    intros Hall. apply (map_eq_nil parameterType). rewrite Hty. clear Hty.
    induction Hall as [|t l Ht0 _ IH]; simpl; [reflexivity|].
    rewrite Ht0. exact IH.
Qed.

Lemma sendAsconf_skips_unknown_change_types_witness :
  asconfOutstanding (state assoc0) = false /\
  exists msg chunk,
    transmissions (snd (sendAsconf env0 "5,abc,,7" false assoc0)) = [msg] /\
    asconfChunksOf msg = [chunk] /\
    asconfOutstanding (state (fst (sendAsconf env0 "5,abc,,7" false assoc0))) = true /\
    asconfParams chunk = [].
Proof.
  split; [reflexivity|].
  destruct (sendAsconf_skips_unknown_change_types env0 "5,abc,,7" false assoc0 eq_refl)
    as [_ [msg [chunk (Ht & Hc & Hset & _ & Hnone)]]].
  exists msg, chunk. repeat split; try assumption.
  apply Hnone.
  assert (E : CStr.tokens ","%char "5,abc,,7" = ["5"; "abc"; "7"]%string)
    by (vm_compute; reflexivity).
  rewrite E.
  repeat (constructor; [vm_compute; reflexivity|]). constructor.
Defined.

(** C7 (retransmission).  With a retained chunk in the state,
    [retransmitAsconf] hands exactly one message to [sendToIP]; its one
    ASCONF chunk is the retained chunk with the chunk type set to ASCONF
    again, so it has the serial number, the parameters (hence the
    correlation identifiers) and the bit length of the retained chunk.
    The association is returned as it was: retained chunk,
    [asconfOutstanding], [corrIdNum] and [asconfSn] included. *)
Theorem retransmitAsconf_resends_retained env a kept :
  asconfChunk (state a) = Some kept ->
  exists msg sent,
    retransmitAsconf env a = Some (a, [SendToIP msg None]) /\
    asconfChunksOf msg = [sent] /\
    sent = setChunkType kept ASCONF /\
    serialNumber sent = serialNumber kept /\
    asconfParams sent = asconfParams kept /\
    map requestCorrelationId (asconfParams sent) =
      map requestCorrelationId (asconfParams kept) /\
    bitLength sent = bitLength kept.
Proof.
  intros Hkept. unfold retransmitAsconf. rewrite Hkept.
  eexists. exists (setChunkType kept ASCONF).
  split; [reflexivity|].
  split; [destruct (auth (state a) && peerAuth (state a))%bool; destruct kept; reflexivity|].
  repeat split.
Qed.

Lemma retransmitAsconf_resends_retained_witness :
  exists kept msg sent,
    asconfChunk (state (fst (sendAsconf env0 "49153,49156" false assoc0))) = Some kept /\
    retransmitAsconf env0 (fst (sendAsconf env0 "49153,49156" false assoc0)) =
      Some (fst (sendAsconf env0 "49153,49156" false assoc0), [SendToIP msg None]) /\
    asconfChunksOf msg = [sent] /\
    serialNumber sent = 7 /\
    map requestCorrelationId (asconfParams sent) = [1; 2].
Proof.
  eexists.
  destruct (retransmitAsconf_resends_retained env0
              (fst (sendAsconf env0 "49153,49156" false assoc0)) _ eq_refl)
    as [msg [sent (Hr & Hc & Hs & _)]].
  exists msg, sent. split; [reflexivity|]. split; [exact Hr|]. split; [exact Hc|].
  rewrite Hs. split; reflexivity.
Defined.



(** The claim of C4 read on the code as it is: the second of the two
    parameters built by one call carries a smaller identifier than the
    first, because the 32-bit counter wraps around. *)
Lemma correlation_id_wraps_around :
  sentCorrelationIds (snd (sendAsconf env0 "49153,49153" false assocWrap))
    = [4294967295; 0] /\
  ~ StronglySorted Z.lt
      (sentCorrelationIds (snd (sendAsconf env0 "49153,49153" false assocWrap))).
Proof.
  assert (E : sentCorrelationIds (snd (sendAsconf env0 "49153,49153" false assocWrap))
              = [4294967295; 0]) by (vm_compute; reflexivity).
  split; [exact E|]. rewrite E. intros H.
  apply StronglySorted_inv in H. destruct H as [_ H].
  apply Forall_inv in H. lia.
Qed.

(* ===================================================================== *)
(** ** Facts about [compareRandom] *)
(* ===================================================================== *)

Section CompareRandomFacts.

Lemma read_outside (v : list Z) i : Z.of_nat (List.length v) <= i -> read v i = None.
Proof.
  intros H. unfold read. destruct (i <? 0) eqn:E; [reflexivity|].
  apply nth_error_None. lia.
Qed.

Lemma read_inside (v : list Z) i :
  0 <= i < Z.of_nat (List.length v) -> exists x, read v i = Some x.
Proof.
  intros H. unfold read. destruct (Z.ltb_spec i 0) as [|_]; [lia|].
  destruct (nth_error v (Z.to_nat i)) as [x|] eqn:E; [eauto|].
  apply nth_error_None in E. lia.
Qed.

(** Two arrays with the same tail agree from index 1. *)
Lemma agreeFrom1_cons x y (t : list Z) : agreeFrom1 (x :: t) (y :: t).
Proof.
  intros i Hi. unfold read. destruct (i <? 0); [reflexivity|].
  destruct (Z.to_nat i) as [|n] eqn:E; [lia|]. reflexivity.
Qed.

Lemma excessLoop_agree v w r lo n :
  0 <= lo -> agreeFrom1 v w -> excessLoop v r lo n = excessLoop w r lo n.
Proof.
  intros Hlo Hvw. induction n as [|n IH]; [reflexivity|].
  cbn [excessLoop]. rewrite (Hvw (lo + Z.of_nat (S n))) by lia.
  destruct (read w (lo + Z.of_nat (S n))) as [x|]; [|reflexivity].
  destruct (x =? 0); [exact IH|reflexivity].
Qed.

Lemma compareLoop_agree kv kv' pkv pkv' n :
  agreeFrom1 kv kv' -> agreeFrom1 pkv pkv' ->
  compareLoop kv pkv n = compareLoop kv' pkv' n.
Proof.
  intros Hk Hp. induction n as [|n IH]; [reflexivity|].
  cbn [compareLoop]. rewrite (Hk (Z.of_nat (S n))), (Hp (Z.of_nat (S n))) by lia.
  destruct (read kv' (Z.of_nat (S n))) as [x|]; [|reflexivity].
  destruct (read pkv' (Z.of_nat (S n))) as [y|]; [|reflexivity].
  destruct (x <? y); [reflexivity|]. destruct (x >? y); [reflexivity|exact IH].
Qed.

(** The loop starts outside the storage: its first access is undefined. *)
Lemma compareLoop_outside kv pkv n :
  (List.length kv <= S n)%nat -> compareLoop kv pkv (S n) = OutOfBounds.
Proof.
  intros H. cbn [compareLoop]. rewrite read_outside by lia. reflexivity.
Qed.

(** On arrays that agree from index 1 the loop finds no difference. *)
Lemma compareLoop_tie kv pkv n :
  agreeFrom1 kv pkv -> (n < List.length kv)%nat -> compareLoop kv pkv n = Fallthrough.
Proof.
  intros Hag. induction n as [|n IH]; intros Hn; [reflexivity|].
  cbn [compareLoop]. rewrite <- (Hag (Z.of_nat (S n))) by lia.
  destruct (read_inside kv (Z.of_nat (S n))) as [x Hx]; [lia|].
  rewrite Hx, Z.ltb_irrefl.
  rewrite Z.gtb_ltb, Z.ltb_irrefl.
  apply IH. lia.
Qed.

(** With equal [sizeof] values and arrays that agree from index 1, the
    result is [true] whenever the accesses stay inside the storage, and
    undefined otherwise. *)
Lemma compareRandom_tie sz sizeInit st :
  agreeFrom1 (keyVector st) (peerKeyVector st) ->
  compareRandom sz sz sizeInit st =
  if ((Z.to_nat (Int.int32 (sizeInit - 1)) =? 0)%nat
      || (Z.to_nat (Int.int32 (sizeInit - 1)) <? List.length (keyVector st))%nat)%bool
  then Some true else None.
Proof.
  intros Hag. unfold compareRandom. rewrite Z.eqb_refl. cbn [negb].
  destruct (Z.to_nat (Int.int32 (sizeInit - 1))) as [|n] eqn:En; [reflexivity|].
  cbn [Nat.eqb orb].
  destruct (Nat.ltb_spec (S n) (List.length (keyVector st))) as [Hlt|Hge].
  - rewrite compareLoop_tie by assumption. reflexivity.
  - rewrite compareLoop_outside by assumption. reflexivity.
Qed.

End CompareRandomFacts.

Section SharedKeyFacts.

Lemma update_split (v : list Z) : forall k x,
  (k < List.length v)%nat -> update v k x = firstn k v ++ x :: skipn (S k) v.
Proof.
  induction v as [|h t IH]; intros k x Hk; simpl in Hk; [lia|].
  destruct k as [|k]; [reflexivity|].
  cbn [update firstn skipn app]. f_equal. apply IH. lia.
Qed.

Lemma skipn_head (v : list Z) : forall i x,
  nth_error v i = Some x -> skipn i v = x :: skipn (S i) v.
Proof.
  induction v as [|h t IH]; intros [|i] x H; try discriminate.
  - injection H as ->. reflexivity.
  - cbn [skipn]. apply IH. exact H.
Qed.

(** The copy loop, when the source and the destination are long enough:
    [n] bytes of [src] from index [i] land in [dst] from index [i + off],
    the rest of [dst] stays. *)
Lemma copyLoop_spec n : forall (i off : Datatypes.nat) src dst,
  (i + n <= List.length src)%nat ->
  (i + off + n <= List.length dst)%nat ->
  Z.of_nat (i + off + n) <= 2 ^ 32 ->
  copyLoop src (Z.of_nat off) n (Z.of_nat i) dst =
  Some (firstn (i + off) dst ++ firstn n (skipn i src) ++ skipn (i + off + n) dst).
Proof.
  induction n as [|n IH]; intros i off src dst Hs Hd H32.
  - cbn [copyLoop firstn app]. rewrite Nat.add_0_r, firstn_skipn. reflexivity.
  - cbn [copyLoop].
    destruct (nth_error src i) as [x|] eqn:Ex;
      [|apply nth_error_None in Ex; lia].
    assert (Hr : read src (Z.of_nat i) = Some x).
    { unfold read. destruct (Z.ltb_spec (Z.of_nat i) 0); [lia|].
      rewrite Nat2Z.id. exact Ex. }
    rewrite Hr.
    assert (Hw : write dst (Int.uint32 (Z.of_nat i + Z.of_nat off)) x =
                 Some (update dst (i + off) x)).
    { rewrite uint32_small by lia. unfold write.
      destruct (Z.leb_spec 0 (Z.of_nat i + Z.of_nat off)); [|lia].
      destruct (Z.ltb_spec (Z.of_nat i + Z.of_nat off) (Z.of_nat (List.length dst))); [|lia].
      cbn [andb]. rewrite <- Nat2Z.inj_add, Nat2Z.id. reflexivity. }
    rewrite Hw.
    replace (Z.of_nat i + 1) with (Z.of_nat (S i)) by lia.
    rewrite update_split by lia.
    rewrite IH.
    + f_equal.
      replace (S i + off)%nat with (List.length (firstn (i + off) dst) + 1)%nat
        by (rewrite length_firstn; lia).
      rewrite firstn_app_2. cbn [firstn].
      rewrite (skipn_head src i x Ex). cbn [firstn].
      rewrite <- app_assoc. cbn [app]. do 3 f_equal.
      replace (List.length (firstn (i + off) dst) + 1 + n)%nat
        with (List.length (firstn (i + off) dst) + S n)%nat by lia.
      rewrite skipn_app, skipn_all2 by (rewrite length_firstn; lia).
      replace (List.length (firstn (i + off) dst) + S n
               - List.length (firstn (i + off) dst))%nat with (S n) by lia.
      cbn [app]. rewrite skipn_cons, skipn_skipn. f_equal. lia.
    + lia.
    + rewrite length_app, length_firstn. cbn [List.length]. rewrite length_skipn. lia.
    + lia.
Qed.

End SharedKeyFacts.

Section SharedKeyLayout.

(** Two copy loops in a row, as in each branch of
    [calculateAssocSharedKey]: [n1] bytes of [v1] to index 0, then [n2]
    bytes of [v2] to index [n1]. *)
Lemma copyLoop_twice (v1 v2 dst : list Z) (n1 n2 : Z) :
  0 <= n1 <= Z.of_nat (List.length v1) ->
  0 <= n2 <= Z.of_nat (List.length v2) ->
  n1 + n2 <= Z.of_nat (List.length dst) ->
  n1 + n2 <= 2 ^ 32 ->
  match copyLoop v1 0 (Z.to_nat n1) 0 dst with
  | None => None
  | Some k1 => copyLoop v2 n1 (Z.to_nat n2) 0 k1
  end =
  Some ((firstn (Z.to_nat n1) v1 ++ firstn (Z.to_nat n2) v2)
          ++ skipn (Z.to_nat (n1 + n2)) dst).
Proof.
  intros H1 H2 Hd H32.
  pose proof (copyLoop_spec (Z.to_nat n1) 0 0 v1 dst) as E1.
  cbn [Z.of_nat Nat.add firstn skipn app] in E1. rewrite E1 by lia. clear E1.
  pose proof (copyLoop_spec (Z.to_nat n2) 0 (Z.to_nat n1) v2
                (firstn (Z.to_nat n1) v1 ++ skipn (Z.to_nat n1) dst)) as E2.
  rewrite Z2Nat.id in E2 by lia.
  cbn [Z.of_nat Nat.add skipn] in E2. rewrite E2; clear E2.
  - f_equal.
    rewrite firstn_app, firstn_firstn, Nat.min_id, length_firstn.
    replace (Z.to_nat n1 - Nat.min (Z.to_nat n1) (List.length v1))%nat with 0%nat by lia.
    cbn [firstn]. rewrite app_nil_r, <- app_assoc. do 2 f_equal.
    rewrite skipn_app, length_firstn.
    rewrite skipn_all2 by (rewrite length_firstn; lia).
    cbn [app]. rewrite skipn_skipn. f_equal. lia.
  - lia.
  - rewrite length_app, length_firstn, length_skipn. lia.
  - lia.
Qed.

End SharedKeyLayout.

(** What [calculateAssocSharedKey] writes.  When [compareRandom] is
    defined and the lengths in use fit the three arrays, the first
    [sizeKeyVector + sizePeerKeyVector] bytes of [sharedKey] become the own
    key vector followed by the peer's if [compareRandom] returned [true],
    the peer's followed by the own otherwise; the rest of the array and
    the rest of the state stay. *)
Lemma calculateAssocSharedKey_layout szKey szPeer sizeInit st b :
  compareRandom szKey szPeer sizeInit st = Some b ->
  0 <= sizeKeyVector st <= Z.of_nat (List.length (keyVector st)) ->
  0 <= sizePeerKeyVector st <= Z.of_nat (List.length (peerKeyVector st)) ->
  sizeKeyVector st + sizePeerKeyVector st <= Z.of_nat (List.length (sharedKey st)) ->
  sizeKeyVector st + sizePeerKeyVector st <= 2 ^ 32 ->
  calculateAssocSharedKey szKey szPeer sizeInit st =
  Some (set_sharedKey st
          ((if b
            then firstn (Z.to_nat (sizeKeyVector st)) (keyVector st)
                 ++ firstn (Z.to_nat (sizePeerKeyVector st)) (peerKeyVector st)
            else firstn (Z.to_nat (sizePeerKeyVector st)) (peerKeyVector st)
                 ++ firstn (Z.to_nat (sizeKeyVector st)) (keyVector st))
           ++ skipn (Z.to_nat (sizeKeyVector st + sizePeerKeyVector st)) (sharedKey st))).
Proof.
  intros Hc Hk Hp Hs H32. unfold calculateAssocSharedKey. rewrite Hc.
  destruct b.
  - pose proof (copyLoop_twice (keyVector st) (peerKeyVector st) (sharedKey st)
                               _ _ Hk Hp Hs H32) as E.
    destruct (copyLoop (keyVector st) 0 _ 0 (sharedKey st)) as [k1|]; [|discriminate].
    rewrite E. reflexivity.
  - assert (Hs' : sizePeerKeyVector st + sizeKeyVector st
                  <= Z.of_nat (List.length (sharedKey st))) by lia.
    assert (H32' : sizePeerKeyVector st + sizeKeyVector st <= 2 ^ 32) by lia.
    pose proof (copyLoop_twice (peerKeyVector st) (keyVector st) (sharedKey st)
                               _ _ Hp Hk Hs' H32') as E.
    destruct (copyLoop (peerKeyVector st) 0 _ 0 (sharedKey st)) as [k1|]; [|discriminate].
    rewrite E. rewrite (Z.add_comm (sizePeerKeyVector st)). reflexivity.
Qed.

(* ===================================================================== *)
(** ** Key comparison and the shared key *)
(* ===================================================================== *)

(** C9 (index 0 is never compared).  Whatever the two [sizeof] values and
    whatever the uninitialised local [size] holds, [compareRandom] gives
    the same result, or is undefined alike, on two states whose key
    vectors and peer key vectors hold the same bytes from index 1 upward.
    When the own and the peer vector of one state agree from index 1
    upward (the two [sizeof] values being equal, as they are for two
    members of one type) the result is never [false], and it is [true]
    as soon as the accesses stay inside the storage. *)
Theorem compareRandom_ignores_index0 szKey szPeer sizeInit st1 st2 :
  0 <= szKey -> 0 <= szPeer ->
  agreeFrom1 (keyVector st1) (keyVector st2) ->
  agreeFrom1 (peerKeyVector st1) (peerKeyVector st2) ->
  compareRandom szKey szPeer sizeInit st1 = compareRandom szKey szPeer sizeInit st2 /\
  (szKey = szPeer ->
   agreeFrom1 (keyVector st1) (peerKeyVector st1) ->
   compareRandom szKey szPeer sizeInit st1 <> Some false /\
   (Int.int32 (sizeInit - 1) < Z.of_nat (List.length (keyVector st1)) ->
    compareRandom szKey szPeer sizeInit st1 = Some true)).
Proof.
  intros Hk Hp Hkv Hpkv. split.
  - unfold compareRandom.
    destruct (negb (szKey =? szPeer)); [destruct (szPeer >? szKey)|].
    + rewrite (excessLoop_agree _ _ _ _ _ Hk Hpkv).
      destruct (excessLoop (peerKeyVector st2) false szKey _); try reflexivity.
      rewrite (compareLoop_agree _ _ _ _ _ Hkv Hpkv). reflexivity.
    + rewrite (excessLoop_agree _ _ _ _ _ Hp Hkv).
      destruct (excessLoop (keyVector st2) true szPeer _); try reflexivity.
      rewrite (compareLoop_agree _ _ _ _ _ Hkv Hpkv). reflexivity.
    + rewrite (compareLoop_agree _ _ _ _ _ Hkv Hpkv). reflexivity.
  - intros <- Hag. rewrite (compareRandom_tie szKey sizeInit st1 Hag). split.
    + destruct (_ || _)%bool; discriminate.
    + intros Hin.
      destruct (Z.to_nat (Int.int32 (sizeInit - 1))) as [|n] eqn:En; [reflexivity|].
      cbn [Nat.eqb orb].
      destruct (Nat.ltb_spec (S n) (List.length (keyVector st1))) as [|Hge];
        [reflexivity|lia].
Qed.

Lemma compareRandom_ignores_index0_witness :
  compareRandom 4 4 4 endpointAB = compareRandom 4 4 4 endpointBA /\
  compareRandom 4 4 4 endpointAB = Some true.
Proof.
  destruct (compareRandom_ignores_index0 4 4 4 endpointAB endpointBA) as [Heq Htie].
  - lia.
  - lia.
  - apply agreeFrom1_cons.
  - apply agreeFrom1_cons.
  - split; [exact Heq|].
    destruct (Htie eq_refl (agreeFrom1_cons 1 2 [7; 7; 7])) as [_ Htrue].
    apply Htrue. vm_compute. reflexivity.
Defined.

(** C3 (what the code does instead).  The result of [compareRandom] does
    not depend on the explicit lengths [sizeKeyVector] and
    [sizePeerKeyVector] held in the state.  At the state [endpointShort]
    (own length 2, peer length 3, the peer's excess byte 5, both vectors
    in 4-byte storage) it answers [true] for every value of the
    uninitialised local for which it is defined, never [false].  At the
    state [endpointPadded] (two vectors of length 2, the own one smaller
    at its most significant byte) the answer changes with the value the
    uninitialised local holds. *)
Theorem compareRandom_reads_storage_not_lengths :
  (forall szKey szPeer sizeInit st k p,
      compareRandom szKey szPeer sizeInit (set_keyLengths st k p) =
      compareRandom szKey szPeer sizeInit st) /\
  (forall sizeInit,
      compareRandom 4 4 sizeInit endpointShort =
      if Int.int32 (sizeInit - 1) <? 4 then Some true else None) /\
  compareRandom 4 4 1 endpointPadded = Some true /\
  compareRandom 4 4 2 endpointPadded = Some false.
Proof.
  split; [reflexivity|]. split; [|split; reflexivity].
  intros sizeInit. unfold compareRandom. rewrite Z.eqb_refl. cbn [negb].
  destruct (Z.ltb_spec (Int.int32 (sizeInit - 1)) 4) as [Hlt|Hge].
  - assert (H : (Z.to_nat (Int.int32 (sizeInit - 1)) = 0 \/
                 Z.to_nat (Int.int32 (sizeInit - 1)) = 1 \/
                 Z.to_nat (Int.int32 (sizeInit - 1)) = 2 \/
                 Z.to_nat (Int.int32 (sizeInit - 1)) = 3)%nat) by lia.
    destruct H as [E|[E|[E|E]]]; rewrite E; reflexivity.
  - destruct (Z.to_nat (Int.int32 (sizeInit - 1))) as [|n] eqn:E; [lia|].
    rewrite compareLoop_outside; [reflexivity|simpl; lia].
Qed.

(** C1 (the two endpoints on a tie above index 0).  [keyA] and [keyB]
    differ at index 0 only.  The endpoint that owns [keyA] and the
    endpoint that owns [keyB] both find [compareRandom] true, for every
    value of the uninitialised local for which the call is defined, so
    each puts its own vector first: the two shared keys are [keyA ++ keyB]
    and [keyB ++ keyA], which differ. *)
Theorem sharedKey_differs_when_keys_differ_at_index0 :
  forall sizeInit,
    calculateAssocSharedKey 4 4 sizeInit endpointAB =
      (if Int.int32 (sizeInit - 1) <? 4
       then Some (set_sharedKey endpointAB (keyA ++ keyB)) else None) /\
    calculateAssocSharedKey 4 4 sizeInit endpointBA =
      (if Int.int32 (sizeInit - 1) <? 4
       then Some (set_sharedKey endpointBA (keyB ++ keyA)) else None) /\
    keyA ++ keyB <> keyB ++ keyA.
Proof.
  intros sizeInit.
  assert (Hb : forall st, List.length (keyVector st) = 4%nat ->
               ((Z.to_nat (Int.int32 (sizeInit - 1)) =? 0)%nat
                || (Z.to_nat (Int.int32 (sizeInit - 1)) <? List.length (keyVector st))%nat)%bool
               = (Int.int32 (sizeInit - 1) <? 4)).
  { intros st ->.
    destruct (Z.ltb_spec (Int.int32 (sizeInit - 1)) 4) as [Hlt|Hge].
    - destruct (Nat.ltb_spec (Z.to_nat (Int.int32 (sizeInit - 1))) 4) as [|]; [|lia].
      apply orb_true_r.
    - destruct (Nat.ltb_spec (Z.to_nat (Int.int32 (sizeInit - 1))) 4) as [|]; [lia|].
      destruct (Nat.eqb_spec (Z.to_nat (Int.int32 (sizeInit - 1))) 0); [lia|reflexivity]. }
  split; [|split].
  - unfold calculateAssocSharedKey.
    rewrite compareRandom_tie by apply agreeFrom1_cons.
    rewrite Hb by reflexivity.
    destruct (Int.int32 (sizeInit - 1) <? 4); [vm_compute|]; reflexivity.
  - unfold calculateAssocSharedKey.
    rewrite compareRandom_tie by apply agreeFrom1_cons.
    rewrite Hb by reflexivity.
    destruct (Int.int32 (sizeInit - 1) <? 4); [vm_compute|]; reflexivity.
  - discriminate.
Qed.

(* ===================================================================== *)
(** ** RIP: deadlines and the triggered-update timer *)
(* ===================================================================== *)

Section RIPFacts.
Import RIP.
Local Open Scope Q_scope.

Lemma isScheduled_scheduleAt t tm rip : isScheduled tm (scheduleAt t tm rip) = true.
Proof.
  unfold isScheduled, scheduleAt. cbn [scheduled].
  rewrite existsb_app. cbn [existsb snd].
  destruct tm; cbn [Timer_eqb orb]; apply orb_true_r.
Qed.

Lemma pending_not_scheduled tm rip : isScheduled tm rip = false -> pending tm rip = [].
Proof.
  unfold isScheduled, pending. induction (scheduled rip) as [|e l IH]; [reflexivity|].
  cbn [existsb filter]. intros H. apply orb_false_iff in H. destruct H as [He Hl].
  rewrite He. apply IH, Hl.
Qed.

Lemma pending_scheduleAt t tm rip :
  pending tm (scheduleAt t tm rip) = pending tm rip ++ [t].
Proof.
  unfold pending, scheduleAt. cbn [scheduled].
  rewrite filter_app, map_app. cbn [filter snd].
  destruct tm; reflexivity.
Qed.

(** The draw is mapped into [1s,5s[. *)
Lemma uniform_1_5_range u : 0 <= u < 1 -> 1 <= uniform 1 5 u /\ uniform 1 5 u < 5.
Proof. unfold uniform. intros [H0 H1]. split; lra. Qed.

(** Every delay of [1s,5s[ is the image of one draw of [0,1[. *)
Lemma uniform_1_5_onto d :
  1 <= d < 5 -> exists u, 0 <= u < 1 /\ uniform 1 5 u == d.
Proof.
  intros [Hlo Hhi]. exists ((d - 1) / 4). unfold uniform. repeat split.
  - apply Qle_shift_div_l; [reflexivity|]. lra.
  - apply Qlt_shift_div_r; [reflexivity|]. lra.
  - field.
Qed.

(** C6 (one pending triggered update).  A second call of [triggerUpdate]
    (at any time, with any draw of the generator) changes nothing: a
    pending trigger is not rescheduled.  From a state with no triggered
    update pending, the two calls leave exactly one triggered-update
    event in the scheduler, due [uniform(1,5)] seconds after the first
    call: a delay between 1s and 5s. *)
Theorem triggerUpdate_schedules_once now1 now2 u1 u2 rip :
  triggerUpdate now2 u2 (triggerUpdate now1 u1 rip) = triggerUpdate now1 u1 rip /\
  (isScheduled TriggeredUpdateTimer rip = false ->
   0 <= u1 < 1 ->
   pending TriggeredUpdateTimer (triggerUpdate now2 u2 (triggerUpdate now1 u1 rip)) =
     [now1 + uniform 1 5 u1] /\
   1 <= uniform 1 5 u1 /\ uniform 1 5 u1 <= 5).
Proof.
  assert (E2 : triggerUpdate now2 u2 (triggerUpdate now1 u1 rip) =
               triggerUpdate now1 u1 rip).
  { destruct (isScheduled TriggeredUpdateTimer rip) eqn:Hs.
    - assert (E1 : triggerUpdate now1 u1 rip = rip)
        by (unfold triggerUpdate; rewrite Hs; reflexivity).
      rewrite E1. unfold triggerUpdate. rewrite Hs. reflexivity.
    - assert (E1 : triggerUpdate now1 u1 rip =
                   scheduleAt (now1 + uniform 1 5 u1) TriggeredUpdateTimer rip)
        by (unfold triggerUpdate; rewrite Hs; reflexivity).
      rewrite E1. unfold triggerUpdate. rewrite isScheduled_scheduleAt. reflexivity. }
  split; [exact E2|]. intros Hfree Hu. split.
  - rewrite E2. unfold triggerUpdate. rewrite Hfree.
    rewrite pending_scheduleAt, (pending_not_scheduled _ _ Hfree). reflexivity.
  - destruct (uniform_1_5_range u1 Hu) as [Hlo Hhi]. split; [exact Hlo|].
    apply Qlt_le_weak, Hhi.
Qed.

Lemma triggerUpdate_schedules_once_witness :
  pending TriggeredUpdateTimer
          (triggerUpdate 11 (3 # 4) (triggerUpdate 10 (1 # 2) (mkRouting [] 180 120 [])))
  = [10 + uniform 1 5 (1 # 2)].
Proof.
  destruct (triggerUpdate_schedules_once 10 11 (1 # 2) (3 # 4) (mkRouting [] 180 120 []))
    as (_ & H).
  destruct H as (Hp & _).
  - reflexivity.
  - split; [discriminate|reflexivity].
  - exact Hp.
Defined.

(** The routes that [purgeRoute] leaves are the routes of the table that
    do not stand for the destination of the purged one. *)
Lemma purgeRoute_routes rip r x :
  In x (ripRoutes (purgeRoute rip r)) <-> In x (ripRoutes rip) /\ route x <> route r.
Proof.
  unfold purgeRoute. cbn [ripRoutes]. rewrite filter_In.
  rewrite negb_true_iff, Z.eqb_neq. reflexivity.
Qed.

(** C5 (expiry ordering).  With the module's intervals at 180s and 120s,
    the expiry deadline of a route is its last update time plus 180s and
    its purge deadline is its expiry deadline plus 120s.  A route that
    [checkRoute] returns is the route it was given, seen strictly before
    its purge deadline.  A route whose purge deadline has passed is not
    returned but removed: the call gives the table of [purgeRoute], in
    which no route stands for the destination of the purged one while
    every other route of the table is kept.  Between the two deadlines
    the route is not returned and the table is the one of
    [invalidateRoute]; strictly before the expiry deadline, and for a
    route without deadlines, the route is returned and the table is
    left as it was. *)
Theorem checkRoute_expiry_ordering now u rip r :
  routeExpiryTime rip = 180 ->
  routePurgeTime rip = 120 ->
  (forall e, expiryTime rip r = Some e -> e = lastUpdateTime r + 180) /\
  (forall p, purgeTime rip r = Some p ->
             exists e, expiryTime rip r = Some e /\ p = e + 120) /\
  (forall rip' r' p,
      checkRoute now u rip r = (rip', Some r') ->
      purgeTime rip r = Some p ->
      r' = r /\ now < p) /\
  (forall p,
      purgeTime rip r = Some p -> p <= now ->
      checkRoute now u rip r = (purgeRoute rip r, None) /\
      (forall x, In x (ripRoutes (purgeRoute rip r)) <->
                 In x (ripRoutes rip) /\ route x <> route r) /\
      ~ In r (ripRoutes (purgeRoute rip r))) /\
  (forall e p,
      expiryTime rip r = Some e -> purgeTime rip r = Some p ->
      e <= now -> now < p ->
      checkRoute now u rip r = (invalidateRoute now u rip r, None)) /\
  (forall e,
      expiryTime rip r = Some e -> now < e ->
      checkRoute now u rip r = (rip, Some r)) /\
  (expiryTime rip r = None -> checkRoute now u rip r = (rip, Some r)).
Proof.
  intros He Hp.
  assert (Hpurge : forall e, expiryTime rip r = Some e ->
                             purgeTime rip r = Some (e + 120)).
  { intros e Ee. unfold purgeTime. rewrite Ee, Hp. reflexivity. }
  split; [|split; [|split; [|split; [|split; [|split]]]]].
  - unfold expiryTime. intros e. destruct (ages (type r)); [|discriminate].
    intros [= <-]. rewrite He. reflexivity.
  - unfold purgeTime. intros p. destruct (expiryTime rip r) as [e|]; [|discriminate].
    intros [= <-]. exists e. rewrite Hp. split; reflexivity.
  - intros rip' r' p. unfold checkRoute.
    destruct (expiryTime rip r) as [e|] eqn:Ee.
    + destruct (purgeTime rip r) as [p0|] eqn:Ep; [|discriminate].
      destruct (Qle_bool p0 now) eqn:Hle; [discriminate|].
      destruct (Qle_bool e now); [discriminate|].
      intros [= _ <-] [= <-]. split; [reflexivity|].
      apply Qnot_le_lt. intros Hc. apply Qle_bool_iff in Hc. congruence.
    + unfold purgeTime. rewrite Ee. discriminate.
  - intros p Ep Hle. split; [|split].
    + unfold checkRoute. rewrite Ep.
      destruct (expiryTime rip r) as [e|] eqn:Ee.
      * apply Qle_bool_iff in Hle. rewrite Hle. reflexivity.
      * unfold purgeTime in Ep. rewrite Ee in Ep. discriminate.
    + intros x. apply purgeRoute_routes.
    + intros Hin. apply purgeRoute_routes in Hin. destruct Hin as [_ Hne].
      apply Hne. reflexivity.
  - intros e p Ee Ep Hle Hlt. unfold checkRoute. rewrite Ee, Ep.
    destruct (Qle_bool p now) eqn:Hb.
    + apply Qle_bool_iff in Hb. exfalso. apply (Qlt_not_le _ _ Hlt Hb).
    + apply Qle_bool_iff in Hle. rewrite Hle. reflexivity.
  - intros e Ee Hlt. unfold checkRoute. rewrite Ee, (Hpurge e Ee).
    destruct (Qle_bool (e + 120) now) eqn:Hb.
    + apply Qle_bool_iff in Hb. exfalso. lra.
    + destruct (Qle_bool e now) eqn:Hb'; [|reflexivity].
      apply Qle_bool_iff in Hb'. exfalso. lra.
  - intros Ee. unfold checkRoute. rewrite Ee. reflexivity.
Qed.

Lemma checkRoute_expiry_ordering_witness :
  checkRoute 300 0
             (mkRouting [newRIPRoute 1 RIP_ROUTE_RTE 2; newRIPRoute 2 RIP_ROUTE_RTE 3]
                        180 120 [])
             (newRIPRoute 1 RIP_ROUTE_RTE 2)
    = (mkRouting [newRIPRoute 2 RIP_ROUTE_RTE 3] 180 120 [], None) /\
  checkRoute 299 0 (mkRouting [] 180 120 []) (newRIPRoute 1 RIP_ROUTE_RTE 2)
    = (mkRouting [] 180 120 [(299 + uniform 1 5 0, TriggeredUpdateTimer)], None) /\
  checkRoute 100 0 (mkRouting [] 180 120 []) (newRIPRoute 1 RIP_ROUTE_RTE 2)
    = (mkRouting [] 180 120 [], Some (newRIPRoute 1 RIP_ROUTE_RTE 2)) /\
  100 < 0 + 180 + 120.
Proof.
  split; [|split; [|split]].
  - destruct (checkRoute_expiry_ordering 300 0
                (mkRouting [newRIPRoute 1 RIP_ROUTE_RTE 2; newRIPRoute 2 RIP_ROUTE_RTE 3]
                           180 120 [])
                (newRIPRoute 1 RIP_ROUTE_RTE 2) eq_refl eq_refl)
      as (_ & _ & _ & H & _).
    destruct (H (0 + 180 + 120) eq_refl) as (E & _).
    + discriminate.
    + rewrite E. reflexivity.
  - destruct (checkRoute_expiry_ordering 299 0 (mkRouting [] 180 120 [])
                (newRIPRoute 1 RIP_ROUTE_RTE 2) eq_refl eq_refl)
      as (_ & _ & _ & _ & H & _).
    rewrite (H (0 + 180) (0 + 180 + 120) eq_refl eq_refl); [reflexivity| |reflexivity].
    discriminate.
  - destruct (checkRoute_expiry_ordering 100 0 (mkRouting [] 180 120 [])
                (newRIPRoute 1 RIP_ROUTE_RTE 2) eq_refl eq_refl)
      as (_ & _ & _ & _ & _ & H & _).
    apply (H (0 + 180) eq_refl). reflexivity.
  - destruct (checkRoute_expiry_ordering 100 0 (mkRouting [] 180 120 [])
                (newRIPRoute 1 RIP_ROUTE_RTE 2) eq_refl eq_refl) as (_ & _ & H & _).
    destruct (H _ _ _ eq_refl eq_refl) as [_ Hlt]. exact Hlt.
Defined.

End RIPFacts.

(* ===================================================================== *)
(** ** VoIP: finishing a talkspurt *)
(* ===================================================================== *)

(** C10 ([finishTalkspurt]).  Finishing a talkspurt sets the status to
    FINISHED and empties the packet collection; the identifier, the packet
    count and the voice duration stay as they were; the talkspurt is no
    longer active. *)
Theorem finishTalkspurt_frame (t : VoIP.TalkspurtInfo) :
  VoIP.status (VoIP.finishTalkspurt t) = VoIP.FINISHED /\
  VoIP.packets (VoIP.finishTalkspurt t) = [] /\
  VoIP.talkspurtID (VoIP.finishTalkspurt t) = VoIP.talkspurtID t /\
  VoIP.talkspurtNumPackets (VoIP.finishTalkspurt t) = VoIP.talkspurtNumPackets t /\
  VoIP.voiceDuration (VoIP.finishTalkspurt t) = VoIP.voiceDuration t /\
  VoIP.isActive (VoIP.finishTalkspurt t) = false.
Proof. repeat split. Qed.

(* ===================================================================== *)
(** ** The token loop of [sendAsconf] in full *)
(* ===================================================================== *)

Import Ack RoutingFile Accounting.

Section TokenLoopFacts.
Variable env : Env.
Variable a : SCTPAssociation.
Variable remote : bool.

Lemma uint16_idemp_l x y : Int.uint16 (Int.uint16 x + y) = Int.uint16 (x + y).
Proof. unfold Int.uint16. apply Zplus_mod_idemp_l. Qed.

Lemma uint32_idemp_l x y : Int.uint32 (Int.uint32 x + y) = Int.uint32 (x + y).
Proof. unfold Int.uint32. apply Zplus_mod_idemp_l. Qed.

Lemma paramLength_bytes addr :
  paramLength env addr = 8 * (SCTP_ADD_IP_PARAMETER_LENGTH env + addrLength addr).
Proof. unfold paramLength, addrLength. destruct (isIPv6 addr); lia. Qed.

Lemma loopFrame_refl b : loopFrame b b.
Proof. unfold loopFrame. repeat split. Qed.

Lemma loopFrame_trans b1 b2 b3 : loopFrame b1 b2 -> loopFrame b2 b3 -> loopFrame b1 b3.
Proof. unfold loopFrame. intuition congruence. Qed.

Lemma asconfToken_frame natMode t b : loopFrame b (asconfToken env a natMode remote t b).
Proof.
  token_cases env t; try apply loopFrame_refl;
    unfold loopFrame; cbn; destruct natMode; repeat split.
Qed.

Lemma asconfLoop_frame natMode toks : forall b,
  loopFrame b (asconfLoop env a natMode remote toks b).
Proof.
  induction toks as [|t toks IH]; intros b; [apply loopFrame_refl|].
  unfold asconfLoop in *. cbn [fold_left].
  eapply loopFrame_trans; [apply asconfToken_frame|apply IH].
Qed.

(** One token: nothing, or one parameter of the selected class, tagged
    with the incremented counter and counted into [chunkLength]. *)
Lemma asconfToken_trace natMode t b :
  let b' := asconfToken env a natMode remote t b in
  match tokenClass env (CStr.atoi t) with
  | None => b' = b
  | Some c =>
      exists p,
        asconfParams (b_chunk b') = asconfParams (b_chunk b) ++ [p] /\
        paramClass p = c /\ builtAs env natMode p /\
        requestCorrelationId p = Int.uint32 (corrIdNum (b_state b) + 1) /\
        corrIdNum (b_state b') = Int.uint32 (corrIdNum (b_state b) + 1) /\
        b_chunkLength b' = Int.uint16 (b_chunkLength b + paramBytes env p)
  end.
Proof.
  token_cases env t; cbv zeta; [| | |reflexivity];
    destruct natMode; eexists;
    cbn -[Z.mul Z.add Int.uint16 Int.uint32 paramLength];
    unfold builtAs, paramBytes;
    cbn -[Z.mul Z.add Int.uint16 Int.uint32 paramLength];
    rewrite ?paramLength_bytes, ?uint16_idemp_l;
    repeat split;
    cbn [paramAddressParam paramBitLength paramClass parameterType paramName
         requestCorrelationId];
    try reflexivity; try (f_equal; lia);
    change (addrLength unspecifiedAddress) with 8; f_equal; lia.
Qed.

Lemma ids_mod_shift c n :
  map (fun k => Int.uint32 (Int.uint32 (c + 1) + Z.of_nat k)) (seq 1 n) =
  map (fun k => Int.uint32 (c + Z.of_nat k)) (seq 2 n).
Proof.
  rewrite <- (seq_shift n 1), map_map. apply map_ext. intros k.
  rewrite uint32_idemp_l. f_equal. lia.
Qed.

(** The loop in full: the parameters appended, their classes in token
    order, how each is built, the identifiers (consecutive modulo [2^32])
    and the length counter (modulo [2^16]). *)
Lemma asconfLoop_trace natMode toks : forall b,
  exists new,
    asconfParams (b_chunk (asconfLoop env a natMode remote toks b)) =
      asconfParams (b_chunk b) ++ new /\
    map paramClass new = classesOf env toks /\
    Forall (builtAs env natMode) new /\
    map requestCorrelationId new =
      map (fun k => Int.uint32 (corrIdNum (b_state b) + Z.of_nat k))
          (seq 1 (List.length new)) /\
    corrIdNum (b_state (asconfLoop env a natMode remote toks b)) =
      match new with
      | [] => corrIdNum (b_state b)
      | _ => Int.uint32 (corrIdNum (b_state b) + Z.of_nat (List.length new))
      end /\
    b_chunkLength (asconfLoop env a natMode remote toks b) =
      match new with
      | [] => b_chunkLength b
      | _ => Int.uint16 (b_chunkLength b + sumBytes env new)
      end.
Proof.
  induction toks as [|t toks IH]; intros b.
  - exists []. cbn. rewrite app_nil_r. repeat split; constructor.
  - unfold asconfLoop in *. cbn [fold_left]. unfold classesOf in *. cbn [flat_map].
    pose proof (asconfToken_trace natMode t b) as Ht. cbv zeta in Ht.
    destruct (tokenClass env (CStr.atoi t)) as [c|].
    + destruct Ht as [p (Hp & Hc & Hb & Hid & Hcorr & Hlen)].
      destruct (IH (asconfToken env a natMode remote t b))
        as [new (Hnew & Hcls & Hall & Hids & Hcn & Hln)].
      exists (p :: new). rewrite Hnew, Hp, <- app_assoc. cbn [app map List.length].
      split; [reflexivity|]. split; [rewrite Hc, Hcls; reflexivity|].
      split; [constructor; assumption|].
      split; [|split].
      * cbn [seq map]. f_equal; [rewrite Hid; f_equal; lia|].
        rewrite Hids, Hcorr. apply ids_mod_shift.
      * rewrite Hcn, Hcorr. destruct new as [|q new]; [reflexivity|].
        rewrite uint32_idemp_l. f_equal. cbn [List.length]. lia.
      * rewrite Hln, Hlen. destruct new as [|q new].
        -- cbn [sumBytes fold_right]. f_equal. lia.
        -- rewrite uint16_idemp_l. f_equal. cbn [sumBytes fold_right]. lia.
    + rewrite Ht. cbn [app]. apply IH.
Qed.

(** The side of the loop that shows only in NAT mode: one registration
    with the main module and one entry of the local address list per
    add-address token, and the destination of the message. *)
Lemma asconfLoop_nat natMode toks : forall b,
  let b' := asconfLoop env a natMode remote toks b in
  let k := addCount env toks in
  b_events b' =
    b_events b ++ (if natMode
                   then repeat (AddLocalAddressToAllRemoteAddresses
                                  (addAddress env) (remoteAddressList a)) k
                   else []) /\
  localAddresses (b_state b') =
    localAddresses (b_state b) ++ (if natMode then repeat (addAddress env) k else []) /\
  b_targetAddr b' =
    (if (natMode && negb (Nat.eqb k 0))%bool
     then (if remote then remoteAddr a else nextAddressOfPath env (remoteAddr a))
     else b_targetAddr b).
Proof.
  induction toks as [|t toks IH]; intros b; cbv zeta.
  - cbn. destruct natMode; rewrite !app_nil_r; repeat split.
  - unfold asconfLoop in *. cbn [fold_left]. unfold addCount in *. cbn [filter].
    specialize (IH (asconfToken env a natMode remote t b)). cbv zeta in IH.
    destruct IH as (He & Hl & Ht). rewrite He, Hl, Ht. clear He Hl Ht.
    token_cases env t; cbn [b_events b_state b_targetAddr List.length].
    + destruct natMode; cbn [andb negb Nat.eqb repeat localAddresses set_corrIdNum
                                push_localAddress app];
        rewrite <- ?app_assoc; cbn [app]; repeat split.
      destruct (List.length _ =? 0)%nat; reflexivity.
    + repeat split.
    + repeat split.
    + repeat split.
Qed.

End TokenLoopFacts.

(* ===================================================================== *)
(** ** [sendAsconf] in closed form *)
(* ===================================================================== *)

(** With no request outstanding, everything [sendAsconf] returns is
    determined by the parameter list the token loop builds: the chunk,
    the message, the events and the new state. *)
Lemma sendAsconf_idle_closed_form env type remote a :
  asconfOutstanding (state a) = false ->
  exists params,
    let toks := CStr.tokens ","%char type in
    let natMode := natBranch env a in
    let k := addCount env toks in
    let chunk :=
      mkAsconfChunk "ASCONF-CHUNK" ASCONF (asconfSn (state a))
                    (if natMode then unspecifiedAddress else localAddr a)
                    (if natMode then Some (peerVTag a) else None)
                    (Int.uint16 (asconfHeaderBytes env a + sumBytes env params) * 8)
                    params in
    let msg :=
      mkMessage "ASCONF-MSG" (SCTP_COMMON_HEADER env * 8)
                (Some (localPort a)) (Some (remotePort a))
                (authPrefix env a ++ [AsconfChunk chunk]) in
    let corr :=
      match params with
      | [] => corrIdNum (state a)
      | _ => Int.uint32 (corrIdNum (state a) + Z.of_nat (List.length params))
      end in
    map paramClass params = classesOf env toks /\
    Forall (builtAs env natMode) params /\
    map requestCorrelationId params =
      map (fun i => Int.uint32 (corrIdNum (state a) + Z.of_nat i))
          (seq 1 (List.length params)) /\
    sendAsconf env type remote a =
      (set_state a
         (mkState true (asconfSn (state a)) corr
                  (localAddresses (state a)
                     ++ (if natMode then repeat (addAddress env) k else []))
                  (auth (state a)) (peerAuth (state a))
                  (Some (setName chunk "STATE-ASCONF"))
                  (keyVector (state a)) (sizeKeyVector (state a))
                  (peerKeyVector (state a)) (sizePeerKeyVector (state a))
                  (sharedKey (state a))),
       (if natMode
        then repeat (AddLocalAddressToAllRemoteAddresses
                       (addAddress env) (remoteAddressList a)) k
        else [])
         ++ [SendToIP msg (Some (asconfTarget env a remote k))]).
Proof.
  intros Hidle. unfold sendAsconf. rewrite Hidle. cbn [negb]. cbv zeta.
  match goal with
  | |- context [asconfLoop env a ?n remote ?toks ?b0] =>
      destruct (asconfLoop_trace env a remote n toks b0)
        as [new (Hnew & Hcls & Hall & Hids & Hcorr & Hlen)];
      pose proof (asconfLoop_nat env a remote n toks b0) as Hnat;
      pose proof (asconfLoop_frame env a remote n toks b0) as Hfr;
      remember (asconfLoop env a n remote toks b0) as b eqn:Eb
  end.
  clear Eb. cbv zeta in Hnat. destruct Hnat as (Hev & Hla & Htg).
  unfold loopFrame in Hfr.
  cbn [b_state b_chunk b_events b_chunkLength b_targetAddr asconfParams app] in *.
  exists new. split; [exact Hcls|]. split; [exact Hall|]. split; [exact Hids|].
  destruct b as [st ch len tgt evs]. destruct st, ch.
  cbn [b_state b_chunk b_events b_chunkLength b_targetAddr] in *.
  cbn [asconfOutstanding asconfSn corrIdNum localAddresses auth peerAuth asconfChunk
       keyVector sizeKeyVector peerKeyVector sizePeerKeyVector sharedKey
       chunkName chunkType serialNumber addressParam chunkPeerVTag bitLength
       asconfParams] in *.
  destruct Hfr as (? & ? & ? & ? & ? & ? & ? & ? & ? & ? & ? & ? & ? & ? & ? & ?).
  subst.
  assert (Hl : Int.uint16 (asconfHeaderBytes env a + sumBytes env new) =
               match new with
               | [] => Int.uint16 (Int.uint16 (SCTP_ADD_IP_CHUNK_LENGTH env)
                                   + (if isIPv6 (localAddr a) then 20 else 8))
               | _ :: _ =>
                   Int.uint16 (Int.uint16 (Int.uint16 (SCTP_ADD_IP_CHUNK_LENGTH env)
                                           + (if isIPv6 (localAddr a) then 20 else 8))
                               + sumBytes env new)
               end).
  { unfold asconfHeaderBytes, addrLength. destruct new.
    - rewrite uint16_idemp_l. cbn [sumBytes fold_right]. f_equal. lia.
    - rewrite uint16_idemp_l.
      rewrite <- (Z.add_assoc (Int.uint16 (SCTP_ADD_IP_CHUNK_LENGTH env))).
      rewrite uint16_idemp_l. f_equal. lia. }
  rewrite Hl. unfold authPrefix, asconfTarget, addChunk, setBitLength, setName, dup,
    set_state, set_asconfOutstanding, set_asconfChunk.
  cbn [state localAddr remoteAddr localPort remotePort peerVTag remoteAddressList
       msgName msgHeaderBitLength srcPort destPort chunks
       asconfOutstanding asconfSn corrIdNum localAddresses auth peerAuth asconfChunk
       keyVector sizeKeyVector peerKeyVector sizePeerKeyVector sharedKey
       chunkName chunkType serialNumber addressParam chunkPeerVTag bitLength
       asconfParams app].
  destruct (auth (state a) && peerAuth (state a))%bool; reflexivity.
Qed.

(* ===================================================================== *)
(** ** What a request looks like on the wire and in the state *)
(* ===================================================================== *)

(** A second request right after any request does nothing: whatever the
    first call found, the flag is set when it returns, so the second call
    returns the association unchanged and causes no event. *)
Theorem sendAsconf_second_call_is_noop env type1 remote1 type2 remote2 a :
  sendAsconf env type2 remote2 (fst (sendAsconf env type1 remote1 a)) =
  (fst (sendAsconf env type1 remote1 a), []).
Proof.
  assert (Hset : asconfOutstanding (state (fst (sendAsconf env type1 remote1 a))) = true).
  { destruct (asconfOutstanding (state a)) eqn:Hout.
    - unfold sendAsconf. rewrite Hout. exact Hout.
    - destruct (sendAsconf_when_idle env type1 remote1 a Hout) as [_ [_ (_ & _ & H & _)]].
      exact H. }
  unfold sendAsconf at 1. rewrite Hset. reflexivity.
Qed.

Lemma transmissions_registrations (b : bool) x y k :
  transmissions (if b then repeat (AddLocalAddressToAllRemoteAddresses x y) k else []) = [].
Proof.
  destruct b; [|reflexivity]. induction k as [|k IH]; [reflexivity|exact IH].
Qed.

(** The message of a request: named ASCONF-MSG, with the local and the
    remote port, and as chunks the AUTH chunk (only when the state has
    both [auth] and [peerAuth]) followed by one ASCONF chunk that carries
    the serial number of the state, the local address, or in NAT mode the
    wildcard address and the peer's verification tag. *)
Theorem sendAsconf_message_framing env type remote a :
  asconfOutstanding (state a) = false ->
  exists msg chunk,
    transmissions (snd (sendAsconf env type remote a)) = [msg] /\
    msgName msg = "ASCONF-MSG"%string /\
    srcPort msg = Some (localPort a) /\
    destPort msg = Some (remotePort a) /\
    chunks msg = authPrefix env a ++ [AsconfChunk chunk] /\
    chunkType chunk = ASCONF /\
    serialNumber chunk = asconfSn (state a) /\
    addressParam chunk = (if natBranch env a then unspecifiedAddress else localAddr a) /\
    chunkPeerVTag chunk = (if natBranch env a then Some (peerVTag a) else None).
Proof.
  intros Hidle.
  destruct (sendAsconf_idle_closed_form env type remote a Hidle) as [params H].
  cbv zeta in H. destruct H as (_ & _ & _ & E). rewrite E. cbn [snd].
  eexists. eexists. split.
  - rewrite transmissions_app, transmissions_registrations. reflexivity.
  - repeat split.
Qed.

Lemma sendAsconf_message_framing_witness :
  exists msg chunk,
    transmissions (snd (sendAsconf envNat "49153" false assoc0)) = [msg] /\
    srcPort msg = Some 5000 /\ destPort msg = Some 6000 /\
    chunks msg = [AsconfChunk chunk] /\
    addressParam chunk = IPv4 0 /\ chunkPeerVTag chunk = Some 99.
Proof.
  destruct (sendAsconf_message_framing envNat "49153" false assoc0 eq_refl)
    as [msg [chunk (Ht & _ & Hs & Hd & Hc & _ & _ & Ha & Hv)]].
  exists msg, chunk. repeat split; assumption.
Defined.

Lemma sumBits_bytes env natMode ps :
  Forall (builtAs env natMode) ps -> sumBits ps = 8 * sumBytes env ps.
Proof.
  induction 1 as [|p ps Hp _ IH]; [reflexivity|].
  change (sumBits (p :: ps)) with (paramBitLength p + sumBits ps).
  change (sumBytes env (p :: ps)) with (paramBytes env p + sumBytes env ps).
  destruct Hp as (_ & _ & _ & Hb). rewrite Hb, IH. lia.
Qed.

(** The length of the chunk of a request: 8 times the 16-bit byte count
    that starts at the chunk header (sized by the family of the local
    address, also in NAT mode) and grows by the parameter header and the
    address of every parameter (8 bytes for IPv4, 20 for IPv6).  Every
    parameter's own bit length is 8 times its byte count, so as long as
    the byte count fits 16 bits the chunk's bit length is the header's
    plus the sum of the parameters'. *)
Theorem sendAsconf_chunk_length env type remote a :
  asconfOutstanding (state a) = false ->
  exists msg chunk,
    transmissions (snd (sendAsconf env type remote a)) = [msg] /\
    asconfChunksOf msg = [chunk] /\
    bitLength chunk =
      Int.uint16 (asconfHeaderBytes env a + sumBytes env (asconfParams chunk)) * 8 /\
    Forall (fun p => paramBitLength p = 8 * paramBytes env p) (asconfParams chunk) /\
    (0 <= asconfHeaderBytes env a + sumBytes env (asconfParams chunk) < 2 ^ 16 ->
     bitLength chunk = 8 * asconfHeaderBytes env a + sumBits (asconfParams chunk)).
Proof.
  intros Hidle.
  destruct (sendAsconf_idle_closed_form env type remote a Hidle) as [params H].
  cbv zeta in H. destruct H as (_ & Hall & _ & E).
  eexists. eexists. split.
  - rewrite E. cbn [snd]. rewrite transmissions_app, transmissions_registrations.
    reflexivity.
  - split.
    + unfold asconfChunksOf, authPrefix. cbn [chunks].
      destruct (auth (state a) && peerAuth (state a))%bool; reflexivity.
    + cbn [bitLength asconfParams]. split; [reflexivity|]. split.
      * eapply Forall_impl; [|exact Hall]. intros p (_ & _ & _ & Hb). exact Hb.
      * intros Hfit. unfold Int.uint16. rewrite Z.mod_small by exact Hfit.
        rewrite (sumBits_bytes env _ params Hall). lia.
Qed.

Lemma sendAsconf_chunk_length_witness :
  exists msg chunk,
    transmissions (snd (sendAsconf env0 "49153,49154" false assoc0)) = [msg] /\
    asconfChunksOf msg = [chunk] /\
    bitLength chunk = 8 * 16 + sumBits (asconfParams chunk).
Proof.
  destruct (sendAsconf_chunk_length env0 "49153,49154" false assoc0 eq_refl)
    as [msg [chunk (Ht & Hc & _ & _ & Hsum)]].
  exists msg, chunk. split; [exact Ht|]. split; [exact Hc|].
  apply Hsum.
  assert (E : asconfChunksOf msg = asconfChunksOf
                (hd msg (transmissions (snd (sendAsconf env0 "49153,49154" false assoc0)))))
    by (rewrite Ht; reflexivity).
  rewrite Hc in E.
  assert (E' : chunk = hd chunk (asconfChunksOf (hd msg (transmissions
                 (snd (sendAsconf env0 "49153,49154" false assoc0))))))
    by (rewrite <- E; reflexivity).
  rewrite E'. vm_compute. split; discriminate || reflexivity.
Defined.

(** The parameters of a request: one per token whose value has a case, in
    token order and of the class of that case.  Each carries the type
    code and the name of its class; add-address and set-primary
    parameters carry the resolved address, in NAT mode the wildcard
    address instead, while a delete parameter carries the resolved
    address in either mode. *)
Theorem sendAsconf_parameters_by_class env type remote a :
  asconfOutstanding (state a) = false ->
  exists msg chunk,
    transmissions (snd (sendAsconf env type remote a)) = [msg] /\
    asconfChunksOf msg = [chunk] /\
    map paramClass (asconfParams chunk) = classesOf env (CStr.tokens ","%char type) /\
    Forall (fun p =>
              parameterType p = typeOfClass env (paramClass p) /\
              paramName p = nameOfClass (paramClass p) /\
              paramAddressParam p = addressOfClass env (natBranch env a) (paramClass p))
           (asconfParams chunk).
Proof.
  intros Hidle.
  destruct (sendAsconf_idle_closed_form env type remote a Hidle) as [params H].
  cbv zeta in H. destruct H as (Hcls & Hall & _ & E).
  eexists. eexists. split.
  - rewrite E. cbn [snd]. rewrite transmissions_app, transmissions_registrations.
    reflexivity.
  - split.
    + unfold asconfChunksOf, authPrefix. cbn [chunks].
      destruct (auth (state a) && peerAuth (state a))%bool; reflexivity.
    + cbn [asconfParams]. split; [exact Hcls|].
      eapply Forall_impl; [|exact Hall]. intros p (Ht & Hn & Ha & _). auto.
Qed.

Lemma sendAsconf_parameters_by_class_witness :
  exists msg chunk,
    transmissions (snd (sendAsconf envNat "49153,49154,49156" false assoc0)) = [msg] /\
    asconfChunksOf msg = [chunk] /\
    map paramClass (asconfParams chunk) =
      [SCTPAddIPParameter; SCTPDeleteIPParameter; SCTPSetPrimaryIPParameter].
Proof.
  destruct (sendAsconf_parameters_by_class envNat "49153,49154,49156" false assoc0 eq_refl)
    as [msg [chunk (Ht & Hc & Hcls & _)]].
  exists msg, chunk. split; [exact Ht|]. split; [exact Hc|].
  rewrite Hcls. vm_compute. reflexivity.
Defined.

(** The events of a request, in order.  Outside NAT mode the only event
    is the transmission, to the remote address, and the local address
    list stays as it was.  In NAT mode every add-address token first
    registers the resolved address with the main module and appends it to
    the local address list (once per token, duplicates included); the
    transmission then goes to the remote address when [remote] is set or
    no add-address token occurred, and to the next address of the remote
    path otherwise. *)
Theorem sendAsconf_events env type remote a :
  asconfOutstanding (state a) = false ->
  let k := addCount env (CStr.tokens ","%char type) in
  exists msg,
    snd (sendAsconf env type remote a) =
      (if natBranch env a
       then repeat (AddLocalAddressToAllRemoteAddresses
                      (addAddress env) (remoteAddressList a)) k
       else [])
        ++ [SendToIP msg (Some (asconfTarget env a remote k))] /\
    localAddresses (state (fst (sendAsconf env type remote a))) =
      localAddresses (state a)
        ++ (if natBranch env a then repeat (addAddress env) k else []).
Proof.
  intros Hidle k.
  destruct (sendAsconf_idle_closed_form env type remote a Hidle) as [params H].
  cbv zeta in H. destruct H as (_ & _ & _ & E). rewrite E.
  eexists. split; reflexivity.
Qed.

Lemma sendAsconf_events_witness :
  exists msg,
    snd (sendAsconf envNat "49153,49153" false assoc0) =
      [AddLocalAddressToAllRemoteAddresses (IPv4 167772162) [IPv4 167772417];
       AddLocalAddressToAllRemoteAddresses (IPv4 167772162) [IPv4 167772417];
       SendToIP msg (Some (IPv4 167772417))] /\
    localAddresses (state (fst (sendAsconf envNat "49153,49153" false assoc0))) =
      [IPv4 167772161; IPv4 167772162; IPv4 167772162].
Proof.
  destruct (sendAsconf_events envNat "49153,49153" false assoc0 eq_refl) as [msg [He Hl]].
  exists msg. split; [exact He|exact Hl].
Defined.

(** The correlation identifiers of a request are consecutive modulo
    [2^32]: the [i]-th parameter carries the counter on entry plus [i],
    reduced to 32 bits, whatever the counter holds; with [n] parameters
    the counter ends at its value on entry plus [n], reduced to 32 bits,
    and is not touched when no token has a case. *)
Theorem sendAsconf_ids_consecutive_modulo env type remote a :
  asconfOutstanding (state a) = false ->
  let n := List.length (classesOf env (CStr.tokens ","%char type)) in
  sentCorrelationIds (snd (sendAsconf env type remote a)) =
    map (fun i => Int.uint32 (corrIdNum (state a) + Z.of_nat i)) (seq 1 n) /\
  corrIdNum (state (fst (sendAsconf env type remote a))) =
    (if Nat.eqb n 0 then corrIdNum (state a)
     else Int.uint32 (corrIdNum (state a) + Z.of_nat n)).
Proof.
  intros Hidle n.
  destruct (sendAsconf_idle_closed_form env type remote a Hidle) as [params H].
  cbv zeta in H. destruct H as (Hcls & _ & Hids & E).
  assert (Hn : n = List.length params).
  { unfold n. rewrite <- Hcls. apply length_map. }
  rewrite E, Hn. cbn [fst snd]. split.
  - unfold sentCorrelationIds.
    rewrite transmissions_app, transmissions_registrations.
    cbn [app transmissions flat_map]. unfold asconfChunksOf, authPrefix. cbn [chunks].
    destruct (auth (state a) && peerAuth (state a))%bool;
      cbn [app flat_map asconfParams]; rewrite !app_nil_r; exact Hids.
  - cbn [state set_state corrIdNum]. destruct params; reflexivity.
Qed.

Lemma sendAsconf_ids_consecutive_modulo_witness :
  sentCorrelationIds (snd (sendAsconf env0 "49153,49154,49156" false assocWrap)) =
    [4294967295; 0; 1] /\
  corrIdNum (state (fst (sendAsconf env0 "49153,49154,49156" false assocWrap))) = 1.
Proof.
  destruct (sendAsconf_ids_consecutive_modulo env0 "49153,49154,49156" false assocWrap
              eq_refl) as [Hids Hc].
  split.
  - rewrite Hids. vm_compute. reflexivity.
  - rewrite Hc. vm_compute. reflexivity.
Defined.

(** What a request never touches: the serial number [asconfSn] (it is
    read into the chunk, not advanced), the authentication flags, the key
    vectors with their lengths, the shared key, and the addresses, ports,
    verification tag and remote address list of the association. *)
Theorem sendAsconf_frame env type remote a :
  let a' := fst (sendAsconf env type remote a) in
  asconfSn (state a') = asconfSn (state a) /\
  auth (state a') = auth (state a) /\
  peerAuth (state a') = peerAuth (state a) /\
  keyVector (state a') = keyVector (state a) /\
  sizeKeyVector (state a') = sizeKeyVector (state a) /\
  peerKeyVector (state a') = peerKeyVector (state a) /\
  sizePeerKeyVector (state a') = sizePeerKeyVector (state a) /\
  sharedKey (state a') = sharedKey (state a) /\
  localAddr a' = localAddr a /\ remoteAddr a' = remoteAddr a /\
  localPort a' = localPort a /\ remotePort a' = remotePort a /\
  peerVTag a' = peerVTag a /\ remoteAddressList a' = remoteAddressList a.
Proof.
  cbv zeta. destruct (asconfOutstanding (state a)) eqn:Hout.
  - unfold sendAsconf. rewrite Hout. cbn [negb fst]. repeat split.
  - destruct (sendAsconf_idle_closed_form env type remote a Hout) as [params H].
    cbv zeta in H. destruct H as (_ & _ & _ & E). rewrite E. repeat split.
Qed.

(* ===================================================================== *)
(** ** How [sendAsconf] reads its type string *)
(* ===================================================================== *)

Section FieldFacts.
Variable delim : ascii.

Lemma take_token_field f r :
  delimFree delim f = true ->
  CStr.take_token delim (f ++ String delim r) = (f, r).
Proof.
  induction f as [|c f IH]; cbn [append CStr.take_token delimFree]; intros H.
  - unfold CStr.is_delim. rewrite Ascii.eqb_refl. reflexivity.
  - apply andb_true_iff in H. destruct H as [Hc Hf].
    apply negb_true_iff in Hc. rewrite Hc, (IH Hf). reflexivity.
Qed.

Lemma take_token_field_end f :
  delimFree delim f = true -> CStr.take_token delim f = (f, EmptyString).
Proof.
  induction f as [|c f IH]; cbn [CStr.take_token delimFree]; intros H; [reflexivity|].
  apply andb_true_iff in H. destruct H as [Hc Hf].
  apply negb_true_iff in Hc. rewrite Hc, (IH Hf). reflexivity.
Qed.

Lemma isField_head f :
  isField delim f = true ->
  exists c f', f = String c f' /\ CStr.is_delim delim c = false /\
               delimFree delim f = true.
Proof.
  unfold isField. intros H. apply andb_true_iff in H. destruct H as [Hne Hf].
  destruct f as [|c f']; [discriminate|].
  exists c, f'. split; [reflexivity|]. split; [|exact Hf].
  cbn [delimFree] in Hf. apply andb_true_iff in Hf. destruct Hf as [Hc _].
  apply negb_true_iff in Hc. exact Hc.
Qed.

Lemma strtok_field f r :
  isField delim f = true ->
  CStr.strtok delim (f ++ String delim r) = Some (f, r).
Proof.
  intros H. destruct (isField_head f H) as [c [f' (-> & Hc & Hf)]].
  unfold CStr.strtok. cbn [append CStr.skip_delims]. rewrite Hc.
  change (String c (f' ++ String delim r)) with (String c f' ++ String delim r)%string.
  rewrite (take_token_field _ r Hf). reflexivity.
Qed.

Lemma strtok_field_end f :
  isField delim f = true -> CStr.strtok delim f = Some (f, EmptyString).
Proof.
  intros H. destruct (isField_head f H) as [c [f' (-> & Hc & Hf)]].
  unfold CStr.strtok. cbn [CStr.skip_delims]. rewrite Hc.
  rewrite (take_token_field_end _ Hf). reflexivity.
Qed.

(** Joining fields with the delimiter and tokenising gives the fields back. *)
Lemma tokens_join fields :
  Forall (fun f => isField delim f = true) fields ->
  CStr.tokens delim (join delim fields) = fields.
Proof.
  induction 1 as [|f rest Hf Hrest IH]; [reflexivity|].
  rewrite tokens_unfold. destruct rest as [|g rest].
  - cbn [join]. rewrite (strtok_field_end f Hf). reflexivity.
  - change (join delim (f :: g :: rest))
      with (f ++ String delim (join delim (g :: rest)))%string.
    rewrite (strtok_field f _ Hf), IH. reflexivity.
Qed.

Lemma skip_delims_head s c s' :
  CStr.skip_delims delim s = String c s' -> CStr.is_delim delim c = false.
Proof.
  induction s as [|d s IH]; cbn [CStr.skip_delims]; [discriminate|].
  destruct (CStr.is_delim delim d) eqn:Hd; [exact IH|].
  intros [= <- _]. exact Hd.
Qed.

Lemma take_token_delimFree s : delimFree delim (fst (CStr.take_token delim s)) = true.
Proof.
  induction s as [|c s IH]; cbn [CStr.take_token]; [reflexivity|].
  destruct (CStr.is_delim delim c) eqn:Hc; [reflexivity|].
  destruct (CStr.take_token delim s) as [t r]. cbn [fst delimFree] in *.
  rewrite Hc, IH. reflexivity.
Qed.

Lemma strtok_isField s t r :
  CStr.strtok delim s = Some (t, r) -> isField delim t = true.
Proof.
  unfold CStr.strtok. destruct (CStr.skip_delims delim s) as [|c s1] eqn:E; [discriminate|].
  intros H0. injection H0 as H. apply skip_delims_head in E.
  pose proof (take_token_delimFree (String c s1)) as Hf.
  cbn [CStr.take_token] in H, Hf. rewrite E in H, Hf.
  destruct (CStr.take_token delim s1) as [t1 r1]. injection H as <- _.
  cbn [fst] in Hf. unfold isField. rewrite Hf. reflexivity.
Qed.

(** Every token the loop visits is a field: not empty, no delimiter. *)
Lemma tokens_are_fields s :
  Forall (fun t => isField delim t = true) (CStr.tokens delim s).
Proof.
  unfold CStr.tokens. generalize (S (String.length s)) as fuel. intros fuel. revert s.
  induction fuel as [|fuel IH]; intros s; cbn [CStr.tokens_fuel]; [constructor|].
  destruct (CStr.strtok delim s) as [[t r]|] eqn:E; [|constructor].
  constructor; [exact (strtok_isField _ _ _ E)|apply IH].
Qed.

End FieldFacts.

(** Reading the type string.  Every token [sendAsconf] dispatches on is a
    non-empty, comma-free piece of the string (leading, trailing and
    repeated commas yield no token).  For a type string written as fields
    joined by commas, the request has one parameter per field whose
    [atoi] value has a case, in the order of the fields. *)
Theorem sendAsconf_reads_comma_separated_fields env fields remote a :
  Forall (fun f => isField ","%char f = true) fields ->
  asconfOutstanding (state a) = false ->
  (forall type, Forall (fun t => isField ","%char t = true) (CStr.tokens ","%char type)) /\
  CStr.tokens ","%char (join ","%char fields) = fields /\
  exists msg chunk,
    transmissions (snd (sendAsconf env (join ","%char fields) remote a)) = [msg] /\
    asconfChunksOf msg = [chunk] /\
    map paramClass (asconfParams chunk) = classesOf env fields /\
    map parameterType (asconfParams chunk) =
      filter (isChangeType env) (map CStr.atoi fields).
Proof.
  intros Hf Hidle. pose proof (tokens_join ","%char fields Hf) as Et.
  split; [intros type; apply tokens_are_fields|]. split; [exact Et|].
  destruct (sendAsconf_idle_closed_form env (join ","%char fields) remote a Hidle)
    as [params H].
  cbv zeta in H. destruct H as (Hcls & _ & _ & E).
  destruct (sendAsconf_when_idle env (join ","%char fields) remote a Hidle)
    as [msg [chunk (Ht & Hc & _ & _ & _ & _ & Hty & _)]].
  exists msg, chunk. split; [exact Ht|]. split; [exact Hc|].
  rewrite Et in Hcls, Hty. split; [|exact Hty].
  rewrite E in Ht. cbn [snd] in Ht.
  rewrite transmissions_app, transmissions_registrations in Ht.
  cbn [app transmissions flat_map] in Ht. injection Ht as <-.
  unfold asconfChunksOf, authPrefix in Hc. cbn [chunks] in Hc.
  destruct (auth (state a) && peerAuth (state a))%bool;
    cbn [app flat_map] in Hc; injection Hc as <-; exact Hcls.
Qed.

Lemma sendAsconf_reads_comma_separated_fields_witness :
  CStr.tokens ","%char "49156,x,49153" = ["49156"; "x"; "49153"]%string /\
  exists msg chunk,
    transmissions (snd (sendAsconf env0 "49156,x,49153" false assoc0)) = [msg] /\
    asconfChunksOf msg = [chunk] /\
    map paramClass (asconfParams chunk) = [SCTPSetPrimaryIPParameter; SCTPAddIPParameter].
Proof.
  destruct (sendAsconf_reads_comma_separated_fields env0 ["49156"; "x"; "49153"]%string
              false assoc0) as [_ [Et [msg [chunk (Ht & Hc & Hcls & _)]]]].
  - repeat constructor.
  - reflexivity.
  - split; [exact Et|]. exists msg, chunk.
    split; [exact Ht|]. split; [exact Hc|]. rewrite Hcls. vm_compute. reflexivity.
Defined.

(* ===================================================================== *)
(** ** Acknowledgements and the peer's chunk list *)
(* ===================================================================== *)

(** An acknowledgement echoes the serial number it is given: the one
    message of [sendAsconfAck] goes to the remote address, carries the
    local and the remote port, and holds the AUTH chunk (only when the
    state has both [auth] and [peerAuth]) followed by exactly the chunk
    [createAsconfAckChunk] builds for that serial number.  The association
    is returned as it was: acknowledging neither sets nor clears
    [asconfOutstanding], so a request or a retransmission made after it
    behaves as it would have before. *)
Theorem sendAsconfAck_echoes_serial env serialNumber a :
  fst (sendAsconfAck env serialNumber a) = a /\
  snd (snd (sendAsconfAck env serialNumber a)) = remoteAddr a /\
  ackSrcPort (fst (snd (sendAsconfAck env serialNumber a))) = localPort a /\
  ackDestPort (fst (snd (sendAsconfAck env serialNumber a))) = remotePort a /\
  exists pre,
    ackChunks (fst (snd (sendAsconfAck env serialNumber a))) =
      pre ++ [AsconfAck (createAsconfAckChunk env serialNumber)] /\
    pre = (if (auth (state a) && peerAuth (state a))%bool
           then [AckAuthentication (createAuthChunk env)] else []) /\
    ackSerialNumber (createAsconfAckChunk env serialNumber) = serialNumber /\
    (forall type remote,
        sendAsconf env type remote (fst (sendAsconfAck env serialNumber a)) =
        sendAsconf env type remote a) /\
    retransmitAsconf env (fst (sendAsconfAck env serialNumber a)) =
      retransmitAsconf env a.
Proof.
  unfold sendAsconfAck, createAsconfAckChunk. cbn [fst snd ackSrcPort ackDestPort ackChunks].
  repeat split. eexists. repeat split.
Qed.

(** [typeInChunkList] is membership in the peer's chunk list. *)
Theorem typeInChunkList_iff_In peerChunkList type :
  typeInChunkList peerChunkList type = true <-> In type peerChunkList.
Proof.
  induction peerChunkList as [|x rest IH]; cbn [typeInChunkList In].
  - split; [discriminate|tauto].
  - destruct (Z.eqb_spec x type) as [->|Hne].
    + split; auto.
    + rewrite IH. split; [auto|]. intros [H|H]; [contradiction|exact H].
Qed.

(* ===================================================================== *)
(** ** Routing entries read from a line of text *)
(* ===================================================================== *)

Lemma setTypeFrom_fresh s h g n m :
  setTypeFrom s (mkIPRoute h g n None m) = mkIPRoute h g n (typeOfColumn s) m.
Proof.
  destruct s as [|[[] [] [] [] [] [] [] []] s]; reflexivity.
Qed.

Lemma column_some set e str saved :
  column set (e, Some (str, saved)) = (set str e, CStr.strtok " "%char saved).
Proof. reflexivity. Qed.

Lemma column_none set e : column set (e, None) = (e, None).
Proof. reflexivity. Qed.

(** The columns of a routing line.  [makeRoutingEntry] reaches the block
    that looks the interface up and adds the route only when the line has
    at least six space-separated columns; with fewer columns, or an empty
    line, it returns before that block.  When it does reach it, host,
    gateway and netmask are made from columns 1 to 3, the type is DIRECT
    or REMOTE when column 4 starts with H or G and is left as constructed
    otherwise, the metric is 0 whatever column 5 holds, the interface
    column is column 6, and further columns are ignored. *)
Theorem makeRoutingEntry_columns route :
  makeRoutingEntry route =
  match CStr.tokens " "%char route with
  | c1 :: c2 :: c3 :: c4 :: c5 :: c6 :: _ =>
      Some (mkIPRoute (Some c1) (Some c2) (Some c3) (typeOfColumn c4) (Some 0), c6)
  | _ => None
  end.
Proof.
  unfold makeRoutingEntry. destruct (String.eqb_spec route "") as [->|_]; [reflexivity|].
  cbv zeta. rewrite (tokens_unfold " "%char route).
  destruct (CStr.strtok " " route) as [[c1 r1]|];
    [rewrite column_some|rewrite !column_none; reflexivity].
  rewrite (tokens_unfold " "%char r1).
  destruct (CStr.strtok " " r1) as [[c2 r2]|];
    [rewrite column_some|rewrite !column_none; reflexivity].
  rewrite (tokens_unfold " "%char r2).
  destruct (CStr.strtok " " r2) as [[c3 r3]|];
    [rewrite column_some|rewrite !column_none; reflexivity].
  rewrite (tokens_unfold " "%char r3).
  destruct (CStr.strtok " " r3) as [[c4 r4]|];
    [rewrite column_some|rewrite !column_none; reflexivity].
  rewrite (tokens_unfold " "%char r4).
  destruct (CStr.strtok " " r4) as [[c5 r5]|];
    [rewrite column_some|rewrite !column_none; reflexivity].
  rewrite (tokens_unfold " "%char r5).
  destruct (CStr.strtok " " r5) as [[c6 r6]|]; [|reflexivity].
  cbn [fst snd]. unfold setHost, setGateway, setNetmask, newIPRoute.
  cbn [host gateway netmask routeType routeMetric].
  rewrite setTypeFrom_fresh. reflexivity.
Qed.

Lemma makeRoutingEntry_columns_witness :
  makeRoutingEntry "10.0.0.0 10.0.0.1 255.0.0.0 G 7 eth0 x" =
    Some (mkIPRoute (Some "10.0.0.0") (Some "10.0.0.1") (Some "255.0.0.0")
                    (Some REMOTE) (Some 0), "eth0")%string /\
  makeRoutingEntry "10.0.0.0 10.0.0.1 255.0.0.0 G 7" = None.
Proof.
  rewrite !makeRoutingEntry_columns. split; vm_compute; reflexivity.
Defined.


(* ===================================================================== *)
(** ** The shared key: what is written, and where it does not fit *)
(* ===================================================================== *)

(** The layout of the shared key.  When [compareRandom] is defined and
    the lengths in use fit the three arrays, [calculateAssocSharedKey]
    changes nothing but [sharedKey]: its first
    [sizeKeyVector + sizePeerKeyVector] bytes become the own key vector
    followed by the peer's when [compareRandom] returned [true], the
    peer's followed by the own when it returned [false], and the bytes
    behind them stay as they were. *)
Theorem calculateAssocSharedKey_writes_winner_first szKey szPeer sizeInit st b :
  compareRandom szKey szPeer sizeInit st = Some b ->
  0 <= sizeKeyVector st <= Z.of_nat (List.length (keyVector st)) ->
  0 <= sizePeerKeyVector st <= Z.of_nat (List.length (peerKeyVector st)) ->
  sizeKeyVector st + sizePeerKeyVector st <= Z.of_nat (List.length (sharedKey st)) ->
  sizeKeyVector st + sizePeerKeyVector st <= 2 ^ 32 ->
  calculateAssocSharedKey szKey szPeer sizeInit st =
  Some (set_sharedKey st
          ((if b
            then firstn (Z.to_nat (sizeKeyVector st)) (keyVector st)
                 ++ firstn (Z.to_nat (sizePeerKeyVector st)) (peerKeyVector st)
            else firstn (Z.to_nat (sizePeerKeyVector st)) (peerKeyVector st)
                 ++ firstn (Z.to_nat (sizeKeyVector st)) (keyVector st))
           ++ skipn (Z.to_nat (sizeKeyVector st + sizePeerKeyVector st)) (sharedKey st))).
Proof. apply calculateAssocSharedKey_layout. Qed.

Lemma calculateAssocSharedKey_writes_winner_first_witness :
  calculateAssocSharedKey 4 4 4 endpointQP =
  Some (set_sharedKey endpointQP [1; 7; 9; 7; 2; 7; 5; 7]).
Proof.
  rewrite (calculateAssocSharedKey_writes_winner_first 4 4 4 endpointQP false).
  - reflexivity.
  - reflexivity.
  - cbn. lia.
  - cbn. lia.
  - cbn. lia.
  - cbn. lia.
Defined.

Section SharedKeyBounds.

Lemma length_update (v : list Z) : forall k x, List.length (update v k x) = List.length v.
Proof.
  induction v as [|h t IH]; intros [|k] x; cbn [update List.length]; auto.
Qed.

Lemma copyLoop_length n : forall src off i dst dst',
  copyLoop src off n i dst = Some dst' -> List.length dst' = List.length dst.
Proof.
  induction n as [|n IH]; intros src off i dst dst'; cbn [copyLoop].
  - intros [= <-]. reflexivity.
  - destruct (read src i) as [x|]; [|discriminate].
    unfold write.
    destruct ((0 <=? Int.uint32 (i + off))
              && (Int.uint32 (i + off) <? Z.of_nat (List.length dst)))%bool;
      [|discriminate].
    intros H. apply IH in H. rewrite H. apply length_update.
Qed.

(** The copy loop runs off the end of the destination: undefined. *)
Lemma copyLoop_overflow n : forall (i off : Datatypes.nat) src dst,
  (i + n <= List.length src)%nat ->
  (i + off <= List.length dst)%nat ->
  (List.length dst < i + off + n)%nat ->
  Z.of_nat (i + off + n) <= 2 ^ 32 ->
  copyLoop src (Z.of_nat off) n (Z.of_nat i) dst = None.
Proof.
  induction n as [|n IH]; intros i off src dst Hs Hd Ho H32; [lia|].
  cbn [copyLoop].
  destruct (read_inside src (Z.of_nat i)) as [x Hx]; [lia|]. rewrite Hx.
  rewrite uint32_small by lia. unfold write.
  destruct (Z.ltb_spec (Z.of_nat i + Z.of_nat off) (Z.of_nat (List.length dst)))
    as [Hlt|Hge].
  - destruct (Z.leb_spec 0 (Z.of_nat i + Z.of_nat off)); [|lia]. cbn [andb].
    replace (Z.of_nat i + 1) with (Z.of_nat (S i)) by lia.
    apply IH; rewrite ?length_update; lia.
  - rewrite andb_false_r. reflexivity.
Qed.

Lemma copyLoop_twice_overflow (v1 v2 dst : list Z) (n1 n2 : Z) :
  0 <= n1 <= Z.of_nat (List.length v1) ->
  0 <= n2 <= Z.of_nat (List.length v2) ->
  Z.of_nat (List.length dst) < n1 + n2 ->
  n1 + n2 <= 2 ^ 32 ->
  match copyLoop v1 0 (Z.to_nat n1) 0 dst with
  | None => None
  | Some k1 => copyLoop v2 n1 (Z.to_nat n2) 0 k1
  end = None.
Proof.
  intros H1 H2 Ho H32.
  destruct (copyLoop v1 0 (Z.to_nat n1) 0 dst) as [k1|] eqn:E1; [|reflexivity].
  pose proof (copyLoop_length _ _ _ _ _ _ E1) as Hl.
  destruct (Z_le_gt_dec n1 (Z.of_nat (List.length dst))) as [Hfit|Hbig].
  - pose proof (copyLoop_overflow (Z.to_nat n2) 0 (Z.to_nat n1) v2 k1) as E2.
    rewrite Z2Nat.id in E2 by lia. cbn [Z.of_nat] in E2. apply E2; lia.
  - pose proof (copyLoop_overflow (Z.to_nat n1) 0 0 v1 dst) as E0.
    cbn [Z.of_nat] in E0. rewrite E0 in E1; [discriminate|lia..].
Qed.

End SharedKeyBounds.

(** No bounds check on the shared key.  When the two lengths in use fit
    their key vectors but their sum exceeds the storage of [sharedKey],
    [calculateAssocSharedKey] writes past the end of the array: its
    behaviour is undefined, whatever [compareRandom] answers. *)
Theorem calculateAssocSharedKey_overruns_sharedKey szKey szPeer sizeInit st :
  0 <= sizeKeyVector st <= Z.of_nat (List.length (keyVector st)) ->
  0 <= sizePeerKeyVector st <= Z.of_nat (List.length (peerKeyVector st)) ->
  Z.of_nat (List.length (sharedKey st)) < sizeKeyVector st + sizePeerKeyVector st ->
  sizeKeyVector st + sizePeerKeyVector st <= 2 ^ 32 ->
  calculateAssocSharedKey szKey szPeer sizeInit st = None.
Proof.
  intros Hk Hp Ho H32. unfold calculateAssocSharedKey.
  destruct (compareRandom szKey szPeer sizeInit st) as [[|]|]; [| |reflexivity].
  - pose proof (copyLoop_twice_overflow (keyVector st) (peerKeyVector st) (sharedKey st)
                                        _ _ Hk Hp Ho H32) as E.
    destruct (copyLoop (keyVector st) 0 _ 0 (sharedKey st)) as [k1|]; [|reflexivity].
    rewrite E. reflexivity.
  - assert (Ho' : Z.of_nat (List.length (sharedKey st))
                  < sizePeerKeyVector st + sizeKeyVector st) by lia.
    assert (H32' : sizePeerKeyVector st + sizeKeyVector st <= 2 ^ 32) by lia.
    pose proof (copyLoop_twice_overflow (peerKeyVector st) (keyVector st) (sharedKey st)
                                        _ _ Hp Hk Ho' H32') as E.
    destruct (copyLoop (peerKeyVector st) 0 _ 0 (sharedKey st)) as [k1|]; [|reflexivity].
    rewrite E. reflexivity.
Qed.

Lemma calculateAssocSharedKey_overruns_sharedKey_witness :
  calculateAssocSharedKey 4 4 4 (set_sharedKey endpointAB [0; 0; 0; 0; 0; 0; 0]) = None.
Proof.
  apply calculateAssocSharedKey_overruns_sharedKey; cbn; lia.
Defined.

(* ===================================================================== *)
(** ** [compareRandom] when the two storage sizes differ *)
(* ===================================================================== *)

Section ExcessFacts.

Lemma int32_small z : - 2 ^ 31 <= z < 2 ^ 31 -> Int.int32 z = z.
Proof. intros H. unfold Int.int32. rewrite Z.mod_small; lia. Qed.

(** A non-zero byte among the indices the excess loop visits, all inside
    the storage, makes it return. *)
Lemma excessLoop_nonzero v r lo n : forall i x,
  0 <= lo ->
  lo < i <= lo + Z.of_nat n ->
  read v i = Some x -> x <> 0 ->
  lo + Z.of_nat n < Z.of_nat (List.length v) ->
  excessLoop v r lo n = Returned r.
Proof.
  induction n as [|n IH]; intros i x Hlo Hi Hx Hnz Hin; [lia|].
  cbn [excessLoop].
  destruct (read_inside v (lo + Z.of_nat (S n))) as [y Hy]; [lia|]. rewrite Hy.
  destruct (Z.eqb_spec y 0) as [->|Hy0]; [|reflexivity].
  apply (IH i x); try assumption; try lia.
  assert (i <> lo + Z.of_nat (S n)) by (intros ->; congruence). lia.
Qed.

Lemma excessLoop_agree_above v w r lo n :
  (forall i, lo < i -> read v i = read w i) ->
  excessLoop v r lo n = excessLoop w r lo n.
Proof.
  intros Hvw. induction n as [|n IH]; [reflexivity|].
  cbn [excessLoop]. rewrite (Hvw (lo + Z.of_nat (S n))) by lia.
  destruct (read w (lo + Z.of_nat (S n))) as [x|]; [|reflexivity].
  destruct (x =? 0); [exact IH|reflexivity].
Qed.

Lemma compareLoop_agree_upto kv kv' pkv pkv' n :
  (forall i, 1 <= i <= Z.of_nat n -> read kv i = read kv' i) ->
  (forall i, 1 <= i <= Z.of_nat n -> read pkv i = read pkv' i) ->
  compareLoop kv pkv n = compareLoop kv' pkv' n.
Proof.
  induction n as [|n IH]; intros Hk Hp; [reflexivity|].
  cbn [compareLoop]. rewrite (Hk (Z.of_nat (S n))), (Hp (Z.of_nat (S n))) by lia.
  destruct (read kv' (Z.of_nat (S n))) as [x|]; [|reflexivity].
  destruct (read pkv' (Z.of_nat (S n))) as [y|]; [|reflexivity].
  destruct (x <? y); [reflexivity|]. destruct (x >? y); [reflexivity|].
  apply IH; intros i Hi; [apply Hk|apply Hp]; lia.
Qed.

End ExcessFacts.

(** The excess bytes of the larger storage.  When the two [sizeof] values
    differ, a non-zero byte of the larger array at an index strictly
    between the smaller and the larger size decides the comparison
    outright: [false] when the peer's array is the larger one, [true]
    when the own array is. *)
Theorem compareRandom_excess_bytes_decide szKey szPeer sizeInit st i x :
  0 <= szKey -> 0 <= szPeer -> x <> 0 ->
  (szKey < i < szPeer ->
   szPeer <= Z.of_nat (List.length (peerKeyVector st)) ->
   read (peerKeyVector st) i = Some x ->
   compareRandom szKey szPeer sizeInit st = Some false) /\
  (szPeer < i < szKey ->
   szKey <= Z.of_nat (List.length (keyVector st)) ->
   read (keyVector st) i = Some x ->
   compareRandom szKey szPeer sizeInit st = Some true).
Proof.
  intros Hk Hp Hx. split; intros Hi Hlen Hr; unfold compareRandom.
  - destruct (Z.eqb_spec szKey szPeer); [lia|]. cbn [negb].
    destruct (Z.gtb_spec szPeer szKey); [|lia].
    rewrite (excessLoop_nonzero _ _ _ _ i x); try assumption; try lia. reflexivity.
  - destruct (Z.eqb_spec szKey szPeer); [lia|]. cbn [negb].
    destruct (Z.gtb_spec szPeer szKey); [lia|].
    rewrite (excessLoop_nonzero _ _ _ _ i x); try assumption; try lia. reflexivity.
Qed.

Lemma compareRandom_excess_bytes_decide_witness :
  compareRandom 1 4 0 endpointShort = Some false /\
  compareRandom 4 1 0 endpointShort = Some true.
Proof.
  split.
  - destruct (compareRandom_excess_bytes_decide 1 4 0 endpointShort 2 5) as [H _];
      try lia. apply H; [lia|cbn; lia|reflexivity].
  - destruct (compareRandom_excess_bytes_decide 4 1 0 endpointShort 2 9) as [_ H];
      try lia. apply H; [lia|cbn; lia|reflexivity].
Defined.

(** The bytes no loop reads.  When the two [sizeof] values differ, the
    excess loop stops above the smaller size and the comparison loop
    starts below it, so besides index 0 the byte at the index equal to
    the smaller size is never read: two states whose vectors differ only
    at these two indices get the same result. *)
Theorem compareRandom_skips_boundary_index szKey szPeer sizeInit st1 st2 :
  0 <= szKey < 2 ^ 31 -> 0 <= szPeer < 2 ^ 31 -> szKey <> szPeer ->
  agreeExcept (Z.min szKey szPeer) (keyVector st1) (keyVector st2) ->
  agreeExcept (Z.min szKey szPeer) (peerKeyVector st1) (peerKeyVector st2) ->
  compareRandom szKey szPeer sizeInit st1 = compareRandom szKey szPeer sizeInit st2.
Proof.
  intros Hk Hp Hne Hkv Hpkv. unfold compareRandom.
  destruct (Z.eqb_spec szKey szPeer); [contradiction|]. cbn [negb].
  destruct (Z.gtb_spec szPeer szKey) as [Hgt|Hle].
  - rewrite Z.min_l in Hkv, Hpkv by lia.
    rewrite (excessLoop_agree_above _ (peerKeyVector st2)) by
      (intros i Hi; apply Hpkv; lia).
    destruct (excessLoop (peerKeyVector st2) false szKey _); try reflexivity.
    rewrite int32_small by lia.
    rewrite (compareLoop_agree_upto _ (keyVector st2) _ (peerKeyVector st2)) by
      (intros i Hi; (apply Hkv || apply Hpkv); lia).
    reflexivity.
  - rewrite Z.min_r in Hkv, Hpkv by lia.
    rewrite (excessLoop_agree_above _ (keyVector st2)) by
      (intros i Hi; apply Hkv; lia).
    destruct (excessLoop (keyVector st2) true szPeer _); try reflexivity.
    rewrite int32_small by lia.
    rewrite (compareLoop_agree_upto _ (keyVector st2) _ (peerKeyVector st2)) by
      (intros i Hi; (apply Hkv || apply Hpkv); lia).
    reflexivity.
Qed.

Lemma compareRandom_skips_boundary_index_witness :
  compareRandom 2 4 0 endpointPQ = compareRandom 2 4 0 endpointAB.
Proof.
  assert (H : forall a b c d e, agreeExcept 2 [a; b; c; d] [a; b; e; d]).
  { intros a b c d e i Hi Hne. unfold read. destruct (i <? 0); [reflexivity|].
    destruct (Z.to_nat i) as [|[|[|n]]] eqn:En; try lia; reflexivity. }
  apply compareRandom_skips_boundary_index; try lia; apply H.
Defined.

(* ===================================================================== *)
(** ** Correlation identifiers over a lifetime *)
(* ===================================================================== *)

(** One call of [sendAsconf] with no request outstanding: the identifiers
    of the parameters it builds, one for every token with a case, are the
    successors of the counter on entry, reduced to 32 bits. *)
Lemma sendAsconf_idle_ids env type remote a :
  asconfOutstanding (state a) = false ->
  exists params : list SCTPParameter,
    List.length params = List.length (classesOf env (CStr.tokens ","%char type)) /\
    sentCorrelationIds (snd (sendAsconf env type remote a)) =
      map (fun i => Int.uint32 (corrIdNum (state a) + Z.of_nat i))
          (seq 1 (List.length params)) /\
    corrIdNum (state (fst (sendAsconf env type remote a))) =
      match params with
      | [] => corrIdNum (state a)
      | _ :: _ => Int.uint32 (corrIdNum (state a) + Z.of_nat (List.length params))
      end.
Proof.
  intros Hout.
  destruct (sendAsconf_idle_closed_form env type remote a Hout) as [params H].
  cbv zeta in H. destruct H as (Hcls & _ & Hids & E).
  exists params. rewrite E. cbn [fst snd]. split; [|split].
  - rewrite <- Hcls. symmetry. apply length_map.
  - unfold sentCorrelationIds.
    rewrite transmissions_app, transmissions_registrations.
    cbn [app transmissions flat_map]. unfold asconfChunksOf, authPrefix. cbn [chunks].
    destruct (auth (state a) && peerAuth (state a))%bool;
      cbn [app flat_map asconfParams]; rewrite !app_nil_r; exact Hids.
  - reflexivity.
Qed.

(** One call of [sendAsconf], whatever the flag holds: the identifiers
    are the successors of the counter on entry, reduced to 32 bits, and
    the counter ends at the last of them. *)
Lemma sendAsconf_call_ids env type remote a :
  0 <= corrIdNum (state a) < 2 ^ 32 ->
  exists n : Datatypes.nat,
    sentCorrelationIds (snd (sendAsconf env type remote a)) =
      map (fun i => Int.uint32 (corrIdNum (state a) + Z.of_nat i)) (seq 1 n) /\
    corrIdNum (state (fst (sendAsconf env type remote a))) =
      Int.uint32 (corrIdNum (state a) + Z.of_nat n).
Proof.
  intros Hc. destruct (asconfOutstanding (state a)) eqn:Hout.
  - exists 0%nat.
    assert (Hnop : sendAsconf env type remote a = (a, [])).
    { unfold sendAsconf. rewrite Hout. reflexivity. }
    rewrite Hnop. cbn [fst snd seq map]. split; [reflexivity|].
    rewrite Z.add_0_r. symmetry. apply uint32_small, Hc.
  - destruct (sendAsconf_idle_ids env type remote a Hout) as [params (_ & Hids & Hcs)].
    exists (List.length params). split; [exact Hids|]. rewrite Hcs.
    destruct params as [|p ps]; [|reflexivity].
    cbn [List.length Z.of_nat]. rewrite Z.add_0_r. symmetry. apply uint32_small, Hc.
Qed.

Lemma uint32_range z : 0 <= Int.uint32 z < 2 ^ 32.
Proof. unfold Int.uint32. apply Z.mod_pos_bound. lia. Qed.

Lemma ids_mod_offset c m n : forall i,
  map (fun k => Int.uint32 (Int.uint32 (c + Z.of_nat m) + Z.of_nat k)) (seq i n) =
  map (fun k => Int.uint32 (c + Z.of_nat k)) (seq (i + m) n).
Proof.
  induction n as [|n IH]; intros i; simpl; [reflexivity|].
  f_equal.
  - rewrite uint32_idemp_l. f_equal. lia.
  - apply (IH (S i)).
Qed.

(** Along a lifetime, whatever its length: the [k]-th identifier handed
    out is the initial value of the counter plus [k], reduced to 32 bits,
    and the counter holds the last one. *)
Lemma Lifetime_counter_modulo env a ids a' :
  Lifetime env a ids a' ->
  0 <= corrIdNum (state a) < 2 ^ 32 ->
  ids = map (fun k => Int.uint32 (corrIdNum (state a) + Z.of_nat k))
            (seq 1 (List.length ids)) /\
  corrIdNum (state a') = Int.uint32 (corrIdNum (state a) + Z.of_nat (List.length ids)).
Proof.
  induction 1 as [|ids a1 type remote Hl IH|ids a1 a2 Hl IH Heq]; intros Hc.
  - cbn [List.length seq map Z.of_nat]. split; [reflexivity|].
    rewrite Z.add_0_r. symmetry. apply uint32_small, Hc.
  - destruct (IH Hc) as [IHids IHc].
    assert (Hc1 : 0 <= corrIdNum (state a1) < 2 ^ 32)
      by (rewrite IHc; apply uint32_range).
    destruct (sendAsconf_call_ids env type remote a1 Hc1) as [n [Hids Hcs]].
    rewrite Hids, Hcs, IHc, length_app, length_map, length_seq.
    rewrite seq_app, map_app, <- IHids, ids_mod_offset, uint32_idemp_l.
    split; [reflexivity|]. f_equal. lia.
  - rewrite Heq. apply IH, Hc.
Qed.

(** Two of [2^32] consecutive values differ modulo [2^32]. *)
Lemma uint32_inj_window c (j k : Datatypes.nat) :
  Z.of_nat j - Z.of_nat k < 2 ^ 32 -> Z.of_nat k - Z.of_nat j < 2 ^ 32 ->
  Int.uint32 (c + Z.of_nat j) = Int.uint32 (c + Z.of_nat k) -> j = k.
Proof.
  unfold Int.uint32. change (2 ^ 32) with 4294967296. intros Hjk Hkj E.
  pose proof (Z.div_mod (c + Z.of_nat j) 4294967296 ltac:(lia)) as Dj.
  pose proof (Z.div_mod (c + Z.of_nat k) 4294967296 ltac:(lia)) as Dk.
  rewrite E in Dj. lia.
Qed.

Lemma successors_mod_NoDup c (n : Datatypes.nat) :
  Z.of_nat n <= 2 ^ 32 ->
  NoDup (map (fun k => Int.uint32 (c + Z.of_nat k)) (seq 1 n)).
Proof.
  intros Hn. apply NoDup_map_NoDup_ForallPairs; [|apply seq_NoDup].
  intros j k Hj Hk E. apply in_seq in Hj, Hk.
  apply (uint32_inj_window c); [lia|lia|exact E].
Qed.

Lemma successors_mod_repeat c (n : Datatypes.nat) :
  2 ^ 32 < Z.of_nat n ->
  ~ NoDup (map (fun k => Int.uint32 (c + Z.of_nat k)) (seq 1 n)).
Proof.
  intros Hn Hnd. destruct n as [|m]; [cbn in Hn; lia|].
  cbn [seq map] in Hnd. apply NoDup_cons_iff in Hnd. destruct Hnd as [Hnin _].
  apply Hnin. apply in_map_iff.
  assert (Hj : exists j : Datatypes.nat, Z.of_nat j = 2 ^ 32).
  { exists (Z.to_nat (2 ^ 32)). apply Z2Nat.id. lia. }
  destruct Hj as [j Hj]. exists (1 + j)%nat. split.
  - unfold Int.uint32. rewrite Nat2Z.inj_add, Hj, Z.add_assoc.
    rewrite <- (Z.mul_1_l (2 ^ 32)) at 1. apply Z.mod_add. lia.
  - apply in_seq. lia.
Qed.


Lemma app_eq_prefix (A : Type) (l1 : list A) : forall l1' l2 l2',
  List.length l1 = List.length l1' -> l1 ++ l2 = l1' ++ l2' -> l1 = l1'.
Proof.
  induction l1 as [|x l1 IH]; intros [|y l1'] l2 l2' Hlen E;
    try discriminate; [reflexivity|].
  cbn [app] in E. injection E as -> E. f_equal.
  apply (IH l1' l2 l2'); [|exact E]. cbn [List.length] in Hlen. lia.
Qed.

(** A lifetime of any length exists: a request for one address change,
    acknowledged, and again. *)
Lemma Lifetime_of_any_length (n : Datatypes.nat) :
  exists ids a', Lifetime env0 assoc0 ids a' /\ List.length ids = n.
Proof.
  induction n as [|n [ids [a1 [Hl Hn]]]].
  - exists [], assoc0. split; [constructor|reflexivity].
  - pose (a2 := set_state a1 (set_asconfOutstanding (state a1) false)).
    assert (Hl2 : Lifetime env0 assoc0 ids a2)
      by (apply (LifetimeOther env0 assoc0 ids a1 a2 Hl); reflexivity).
    destruct (sendAsconf_idle_ids env0 "49153" false a2 eq_refl)
      as [params (Hlen & Hids & _)].
    exists (ids ++ sentCorrelationIds (snd (sendAsconf env0 "49153" false a2))),
           (fst (sendAsconf env0 "49153" false a2)).
    split; [apply LifetimeSend, Hl2|].
    rewrite Hids, length_app, length_map, length_seq, Hlen, Hn.
    change (List.length (classesOf env0 (CStr.tokens ","%char "49153"))) with 1%nat.
    lia.
Qed.

(** C4 (correlation identifiers over a lifetime).  Over a lifetime of
    the association, with the counter [corrIdNum] a 32-bit value at its
    start: the [k]-th parameter built carries the initial
    value of the counter plus [k], reduced to 32 bits, and the counter
    ends at the last identifier handed out: each identifier is obtained
    by incrementing the counter.  No two parameters carry the same
    identifier exactly when at most [2^32] parameters are built in the
    lifetime.  As long as the counter has not wrapped (for every initial
    part [before] of the lifetime with the initial value plus the number
    of its parameters below [2^32]) the identifiers are the plain
    successors of the initial value: each is strictly larger than every
    identifier handed out before it, and than the initial value. *)
Theorem correlation_ids_unique_until_exhausted env a ids a' :
  Lifetime env a ids a' ->
  0 <= corrIdNum (state a) < 2 ^ 32 ->
  ids = map (fun k => Int.uint32 (corrIdNum (state a) + Z.of_nat k))
            (seq 1 (List.length ids)) /\
  corrIdNum (state a') =
    Int.uint32 (corrIdNum (state a) + Z.of_nat (List.length ids)) /\
  (NoDup ids <-> Z.of_nat (List.length ids) <= 2 ^ 32) /\
  (forall before after,
      ids = before ++ after ->
      corrIdNum (state a) + Z.of_nat (List.length before) < 2 ^ 32 ->
      before = map (fun k => corrIdNum (state a) + Z.of_nat k)
                   (seq 1 (List.length before)) /\
      StronglySorted Z.lt before /\
      Forall (fun i => corrIdNum (state a) < i) before).
Proof.
  intros Hl Hc. destruct (Lifetime_counter_modulo env a ids a' Hl Hc) as [Hids Hcs].
  split; [exact Hids|]. split; [exact Hcs|]. split.
  - split.
    + intros Hnd.
      destruct (Z.le_gt_cases (Z.of_nat (List.length ids)) (2 ^ 32)) as [Hle|Hgt];
        [exact Hle|].
      exfalso. rewrite Hids in Hnd.
      exact (successors_mod_repeat _ _ Hgt Hnd).
    + intros Hle. rewrite Hids. apply successors_mod_NoDup, Hle.
  - intros before after Hsplit Hlt.
    assert (Hb : before = map (fun k => corrIdNum (state a) + Z.of_nat k)
                              (seq 1 (List.length before))).
    { rewrite Hsplit in Hids at 1. rewrite Hsplit, length_app, seq_app, map_app in Hids.
      apply app_eq_prefix in Hids; [|now rewrite length_map, length_seq].
      rewrite Hids at 1. apply map_ext_in. intros k Hk. apply in_seq in Hk.
      apply uint32_small. lia. }
    split; [exact Hb|]. rewrite Hb. split.
    + apply successors_sorted.
    + apply Forall_forall. intros x Hx. apply in_map_iff in Hx.
      destruct Hx as [k [<- Hk]]. apply in_seq in Hk. lia.
Qed.

Lemma correlation_ids_unique_until_exhausted_witness :
  Lifetime env0 assocWrap [4294967295; 0]
           (fst (sendAsconf env0 "49153,49153" false assocWrap)) /\
  corrIdNum (state (fst (sendAsconf env0 "49153,49153" false assocWrap))) = 0 /\
  NoDup [4294967295; 0] /\
  StronglySorted Z.lt [4294967295].
Proof.
  assert (E : sentCorrelationIds (snd (sendAsconf env0 "49153,49153" false assocWrap))
              = [4294967295; 0]) by (vm_compute; reflexivity).
  pose proof (LifetimeSend env0 assocWrap [] assocWrap "49153,49153" false
                           (LifetimeStart env0 assocWrap)) as L.
  cbn [app] in L. rewrite E in L.
  assert (Hc : 0 <= corrIdNum (state assocWrap) < 2 ^ 32)
    by (split; [discriminate|reflexivity]).
  destruct (correlation_ids_unique_until_exhausted env0 assocWrap _ _ L Hc)
    as (_ & Hcs & Hnd & Hpre).
  split; [exact L|]. split; [rewrite Hcs; reflexivity|]. split.
  - apply Hnd. discriminate.
  - destruct (Hpre [4294967295] [0] eq_refl) as (_ & Hs & _); [reflexivity|exact Hs].
Defined.
